(** * mule-ai/proxy: the priority scheduler and its preemption engine

    A shallow embedding of [pkg/proxy] (queue manager, scheduler loop,
    request processor, preemption monitor, ingress handler) and of
    [openai.ExtractRequestMetadata], followed by the properties the
    specification states about them.

    Conventions.
    - Go's [int] and [int64] are 64-bit two's complement integers: they are
      carried as [Z] and every arithmetic result goes through [wrap_int].
    - Go strings are byte strings: [string] here, [String.length] is [len].
    - A buffered channel is its buffer (oldest element first) and its
      capacity; [select] with a [default] branch is a probe that fails
      instead of blocking.
    - Pointers that the code only compares or shares (response writers,
      [done] channels, cancellation scopes) are handles, i.e. numbers.
    - What the code does to the outside world (writes to a response writer,
      closing a channel, cancelling a scope) is recorded as a list of
      [Effect]s in program order. *)

From Stdlib Require Import ZArith Lia Bool Ascii String.
From stdpp Require Import base option list strings sorting gmap.

Local Open Scope string_scope.
Local Open Scope list_scope.
Local Open Scope Z_scope.

(* ===================================================================== *)
(** ** Go primitives *)
(* ===================================================================== *)

Module Go.

(** 64-bit signed integers. *)
Definition int_min : Z := - 2 ^ 63.
Definition int_max : Z := 2 ^ 63 - 1.

Definition wrap_int (z : Z) : Z := (z + 2 ^ 63) mod 2 ^ 64 - 2 ^ 63.

Definition int_add (a b : Z) : Z := wrap_int (a + b).

Definition in_int_range (z : Z) : bool := (int_min <=? z) && (z <=? int_max).

(** [len(s)] of a string, as an [int]. *)
Definition len (s : string) : Z := Z.of_nat (String.length s).

(** The double quote, for the JSON literals the handlers write. *)
Definition dq : string := String "034"%char EmptyString.

(** [strings.TrimPrefix]: [s] without the leading [prefix], or [s] itself. *)
Fixpoint strip_prefix (prefix s : string) : option string :=
  match prefix, s with
  | EmptyString, _ => Some s
  | String a p, String b r => if Ascii.eqb a b then strip_prefix p r else None
  | String _ _, EmptyString => None
  end.

Definition TrimPrefix (s prefix : string) : string :=
  match strip_prefix prefix s with
  | Some rest => rest
  | None => s
  end.

(** [strconv.Atoi]: an optional sign, then at least one decimal digit and
    nothing else; the value has to fit an [int].  [None] is the error. *)
Definition digit_of (c : ascii) : option Z :=
  let n := Z.of_nat (nat_of_ascii c) in
  if (48 <=? n) && (n <=? 57) then Some (n - 48) else None.

Fixpoint parse_digits (acc : Z) (s : string) : option Z :=
  match s with
  | EmptyString => Some acc
  | String c r =>
      match digit_of c with
      | Some d => parse_digits (acc * 10 + d) r
      | None => None
      end
  end.

Definition Atoi (s : string) : option Z :=
  match s with
  | EmptyString => None
  | String c rest =>
      let neg := Ascii.eqb c "-"%char in
      let signed := neg || Ascii.eqb c "+"%char in
      let digits := if signed then rest else s in
      match digits with
      | EmptyString => None
      | String _ _ =>
          match parse_digits 0 digits with
          | Some n =>
              let v := if neg then - n else n in
              if in_int_range v then Some v else None
          | None => None
          end
      end
  end.

(** Buffered channels and the two non-blocking probes the code uses. *)
Record chan (A : Type) : Type := MkChan { buf : list A; cap : nat }.
Arguments MkChan {A} _ _.
Arguments buf {A} _.
Arguments cap {A} _.

Definition make_chan {A : Type} (capacity : nat) : chan A := MkChan [] capacity.

Definition chan_len {A : Type} (c : chan A) : nat := length (buf c).

(** [select { case c <- x: ... default: ... }] *)
Definition try_send {A : Type} (c : chan A) (x : A) : option (chan A) :=
  if decide (chan_len c < cap c)%nat then Some (MkChan (buf c ++ [x]) (cap c)) else None.

(** [select { case x := <-c: ... default: ... }] *)
Definition try_recv {A : Type} (c : chan A) : option (A * chan A) :=
  match buf c with
  | [] => None
  | x :: rest => Some (x, MkChan rest (cap c))
  end.

End Go.

Import Go.


(* ===================================================================== *)
(** ** Package openai: request classification *)
(* ===================================================================== *)

Module OpenAI.

(** What [json.Unmarshal] stores in an [interface{}]: [nil], [bool],
    [float64] (kept as the literal, never inspected here), [string],
    [[]interface{}] and [map[string]interface{}]. *)
#[local] Unset Elimination Schemes.
Inductive json : Type :=
| JNull
| JBool (b : bool)
| JNumber (literal : string)
| JString (s : string)
| JArray (items : list json)
| JObject (fields : gmap string json).
#[local] Set Elimination Schemes.

(** The type assertions [v.(string)], [v.([]interface{})] and
    [v.(map[string]interface{})]; indexing a map at a missing key gives the
    nil interface, on which every assertion fails. *)
Definition as_string (v : option json) : option string :=
  match v with Some (JString s) => Some s | _ => None end.

Definition as_array (v : option json) : option (list json) :=
  match v with Some (JArray l) => Some l | _ => None end.

Definition as_object (v : option json) : option (gmap string json) :=
  match v with Some (JObject m) => Some m | _ => None end.

(** An [io.Reader] as [io.ReadAll] sees it. *)
Inductive Reader : Type :=
| ReadOK (bytes : string)
| ReadErr (msg : string).

(** [inputTokens += int64(len(s) / 4)] *)
Definition add_tokens (inputTokens : Z) (s : string) : Z :=
  int_add inputTokens (len s / 4).

(** The loop over [messages]: only maps with a string [content] count. *)
Definition count_message (inputTokens : Z) (msg : json) : Z :=
  match as_object (Some msg) with
  | Some msgMap =>
      match as_string (msgMap !! "content") with
      | Some content => add_tokens inputTokens content
      | None => inputTokens
      end
  | None => inputTokens
  end.

(** The loops over an array [prompt] or [input]: only strings count. *)
Definition count_element (inputTokens : Z) (p : json) : Z :=
  match as_string (Some p) with
  | Some str => add_tokens inputTokens str
  | None => inputTokens
  end.

(** The loop over [tools]: the [type] of every map that has a string one. *)
Definition tool_types (toolsArray : list json) : list string :=
  omap (fun tool =>
          match as_object (Some tool) with
          | Some toolMap => as_string (toolMap !! "type")
          | None => None
          end) toolsArray.

Record Metadata : Type := MkMetadata {
  md_model : string;
  md_inputTokens : Z;
  md_tools : list string;
  md_err : option string
}.

Section Extract.

(** [encoding/json] is not part of the repository: the decoder is a
    parameter.  [json_parse bytes] is the value the bytes denote, [None]
    when they are not well-formed JSON. *)
Variable json_parse : string -> option json.

(** [json.Unmarshal(bodyBytes, &request)] with
    [request : map[string]interface{}]: an object fills the map, [null]
    leaves it nil, anything else is an error. *)
Definition Unmarshal (bodyBytes : string) : option (gmap string json) :=
  match json_parse bodyBytes with
  | Some (JObject m) => Some m
  | Some JNull => Some ∅
  | _ => None
  end.

Definition estimate_tokens (request : gmap string json) : Z :=
  match as_array (request !! "messages") with
  | Some messages => foldl count_message 0 messages
  | None =>
  match as_string (request !! "prompt") with
  | Some prompt => add_tokens 0 prompt
  | None =>
  match as_array (request !! "prompt") with
  | Some promptArray => foldl count_element 0 promptArray
  | None =>
  match as_string (request !! "input") with
  | Some input => add_tokens 0 input
  | None =>
  match as_array (request !! "input") with
  | Some inputArray => foldl count_element 0 inputArray
  | None => 0
  end end end end end.

Definition ExtractRequestMetadata (body : option Reader) : Metadata :=
  match body with
  | None => MkMetadata "" 0 [] None
  | Some (ReadErr msg) => MkMetadata "" 0 [] (Some msg)
  | Some (ReadOK bodyBytes) =>
      match Unmarshal bodyBytes with
      | None => MkMetadata "" 0 [] (Some "invalid JSON")
      | Some request =>
          let model := default "" (as_string (request !! "model")) in
          let inputTokens := estimate_tokens request in
          let tools := default [] (tool_types <$> as_array (request !! "tools")) in
          MkMetadata model inputTokens tools None
      end
  end.

End Extract.

(** In the words of the specification: the text inputs of a request body
    (the contents of the messages of a chat body; else the prompt, a string
    or the strings of an array; else the input, likewise), and the number
    of characters divided by 4, summed over them. *)
Definition message_content (msg : json) : option string :=
  match msg with
  | JObject fields => as_string (fields !! "content")
  | _ => None
  end.

Definition element_text (v : json) : option string := as_string (Some v).

Definition text_inputs (request : gmap string json) : list string :=
  match request !! "messages" with
  | Some (JArray messages) => omap message_content messages
  | _ =>
      match request !! "prompt" with
      | Some (JString prompt) => [prompt]
      | Some (JArray prompts) => omap element_text prompts
      | _ =>
          match request !! "input" with
          | Some (JString input) => [input]
          | Some (JArray inputs) => omap element_text inputs
          | _ => []
          end
      end
  end.

Definition quarter (s : string) : Z := Z.of_nat (String.length s) / 4.
Arguments quarter : simpl never.

Definition token_estimate (request : gmap string json) : Z :=
  foldr Z.add 0 (quarter <$> text_inputs request).

(** The top-level object of a decoded body; no fields when the body is not
    an object. *)
Definition fields_of (j : json) : gmap string json :=
  match j with JObject fields => fields | _ => ∅ end.

End OpenAI.

(* ===================================================================== *)
(** ** Package proxy: data model *)
(* ===================================================================== *)

Module Proxy.

Import OpenAI.

(** A cancellation scope: [context.Background()] or the scope number [id]
    made by [context.WithCancel]. *)
Inductive Context : Type :=
| Background
| WithCancel (id : nat).

(** The parts of [*http.Request] the proxy reads.  [Body] is [None] for a
    nil body. *)
Record HttpRequest : Type := MkHttpRequest {
  Method : string;
  Host : string;
  URLPath : string;
  Body : option Reader;
  ReqCtx : Context
}.

(** [r.Clone(ctx)]: a new request value with the context replaced. *)
Definition Clone (ctx : Context) (r : HttpRequest) : HttpRequest :=
  MkHttpRequest (Method r) (Host r) (URLPath r) (Body r) ctx.

(** [workRequest].  [ResponseWriter] and [Done] are handles; [PreemptCtx]
    and [PreemptCancel] are nil ([None]) until [processRequest] sets them;
    [StartTime] and [ProcessingTime] are in nanoseconds. *)
Record workRequest : Type := MkWorkRequest {
  Request : HttpRequest;
  ResponseWriter : nat;
  Done : nat;
  PreemptCtx : option Context;
  PreemptCancel : option Context;
  StartTime : Z;
  Model : string;
  InputTokens : Z;
  ProcessingTime : Z;
  Tools : list string;
  RetryCount : Z;
  Preempted : bool
}.

Record PriorityQueue : Type := MkPriorityQueue {
  Port : Z;
  Priority : Z;
  Preemptive : bool;
  Requests : chan workRequest
}.

(** The same queue with another channel state. *)
Definition with_requests (q : PriorityQueue) (c : chan workRequest) : PriorityQueue :=
  MkPriorityQueue (Port q) (Priority q) (Preemptive q) c.

(** [config.Endpoint] *)
Record Endpoint : Type := MkEndpoint {
  ep_Port : Z;
  ep_Priority : Z;
  ep_Preemptive : bool
}.

(** [QueueManager].  The [OpenAIClient] field is the environment: what a
    call of [ForwardRequest] returns is an input of the processor below.
    [mu] guards nothing that a function of the state could observe. *)
Record QueueManager : Type := MkQueueManager {
  Queues : list PriorityQueue;
  stopping : bool
}.

(* ===================================================================== *)
(** ** Queue manager *)
(* ===================================================================== *)

Definition NewQueueManager (endpoints : list Endpoint) : QueueManager :=
  MkQueueManager
    (map (fun ep => MkPriorityQueue (ep_Port ep) (ep_Priority ep) (ep_Preemptive ep)
                      (make_chan 100))
         endpoints)
    false.

(** [FindQueue] and [FindQueueByPort] return a pointer into [qm.Queues]:
    the position of the first match, with the queue found there. *)
Definition FindQueue (qm : QueueManager) (priority : Z) : option (nat * PriorityQueue) :=
  list_find (fun q => Priority q = priority) (Queues qm).

Definition FindQueueByPort (qm : QueueManager) (port : Z) : option (nat * PriorityQueue) :=
  list_find (fun q => Port q = port) (Queues qm).

(** [sortByPriority] calls [sort.Slice] with [less i j] iff
    [Queues[i].Priority < Queues[j].Priority].  [sort.Slice] promises a
    rearrangement of the slice in which no element is [less] than one
    before it, and nothing about the order of equal elements: the outcomes
    it may produce are a relation. *)
Definition rank_le (a b : PriorityQueue) : Prop := Priority a <= Priority b.

Definition sortByPriority (before after : list PriorityQueue) : Prop :=
  after ≡ₚ before /\ StronglySorted rank_le after.

(** One admissible outcome, computed. *)
#[global] Instance rank_le_dec : RelDecision rank_le.
Proof. intros a b. unfold rank_le. apply _. Defined.

#[global] Instance rank_le_trans : Transitive rank_le.
Proof. unfold rank_le. intros a b c. lia. Qed.

#[global] Instance rank_le_total : Total rank_le.
Proof. unfold rank_le. intros a b. lia. Qed.

Definition sorted_queues (qs : list PriorityQueue) : list PriorityQueue :=
  merge_sort rank_le qs.

(** [ShouldPreempt] *)
Definition outranks (currentPriority : Z) (q : PriorityQueue) : bool :=
  (Priority q <? currentPriority) && Preemptive q && (0 <? chan_len (Requests q))%nat.

Fixpoint any_outranks (currentPriority : Z) (qs : list PriorityQueue) : bool :=
  match qs with
  | [] => false
  | q :: rest => if outranks currentPriority q then true else any_outranks currentPriority rest
  end.

Definition ShouldPreempt (qm : QueueManager) (currentPriority : Z) : bool :=
  if stopping qm then false else any_outranks currentPriority (Queues qm).

(** [processNextRequest]: probe the queues in slice order; the first probe
    that yields a request ends the scan, and the request is handed, with
    its queue, to a new [processRequest] goroutine.  The result is the
    request, the position of its queue, and the queues afterwards. *)
Fixpoint scan (qs : list PriorityQueue) : option (workRequest * nat * list PriorityQueue) :=
  match qs with
  | [] => None
  | q :: rest =>
      match try_recv (Requests q) with
      | Some (req, c) => Some (req, 0%nat, with_requests q c :: rest)
      | None =>
          match scan rest with
          | Some (req, i, rest') => Some (req, S i, q :: rest')
          | None => None
          end
      end
  end.

Definition processNextRequest (qm : QueueManager) : option (workRequest * nat) * QueueManager :=
  match scan (Queues qm) with
  | Some (req, i, qs) => (Some (req, i), MkQueueManager qs (stopping qm))
  | None => (None, qm)
  end.

(** A non-blocking send on the queue at position [i], as ingress and the
    preemption monitor do it. *)
Definition offer (qs : list PriorityQueue) (i : nat) (req : workRequest)
  : option (list PriorityQueue) :=
  match qs !! i with
  | Some q =>
      match try_send (Requests q) req with
      | Some c => Some (<[i := with_requests q c]> qs)
      | None => None
      end
  | None => None
  end.

(** The same scan while other goroutines are sending.  The probes are not
    one atomic step: [during] lists, for each queue probed and found empty
    in turn, the sends that take place before the next probe ([n] queues
    are still to be probed, the next one at position [k]). *)
Definition deliver (qs : list PriorityQueue) (sends : list (nat * workRequest))
  : list PriorityQueue :=
  foldl (fun acc send => default acc (offer acc send.1 send.2)) qs sends.

Fixpoint scan_amid (n k : nat) (during : list (list (nat * workRequest)))
    (qs : list PriorityQueue) : option (workRequest * nat) * list PriorityQueue :=
  match n with
  | O => (None, qs)
  | S n' =>
      match qs !! k with
      | None => (None, qs)
      | Some q =>
          match try_recv (Requests q) with
          | Some (req, c) => (Some (req, k), <[k := with_requests q c]> qs)
          | None => scan_amid n' (S k) (tail during) (deliver qs (default [] (head during)))
          end
      end
  end.

(** [StartScheduler] after [sortByPriority]: the loop, driven by what
    happens around it.  [Iterate] is one pass of the loop body; [Send] is a
    non-blocking send by another goroutine between two passes.  The log
    records what was dispatched, accepted and turned away, in order. *)
Inductive SchedEvent : Type :=
| Iterate
| Send (i : nat) (req : workRequest).

Inductive SchedLog : Type :=
| Dispatched (i : nat) (req : workRequest)
| Accepted (i : nat) (req : workRequest)
| Rejected (i : nat) (req : workRequest).

Fixpoint scheduler_loop (qs : list PriorityQueue) (events : list SchedEvent)
  : list SchedLog * list PriorityQueue :=
  match events with
  | [] => ([], qs)
  | Iterate :: rest =>
      match scan qs with
      | Some (req, i, qs') =>
          let '(log, final) := scheduler_loop qs' rest in (Dispatched i req :: log, final)
      | None => scheduler_loop qs rest
      end
  | Send i req :: rest =>
      match offer qs i req with
      | Some qs' =>
          let '(log, final) := scheduler_loop qs' rest in (Accepted i req :: log, final)
      | None =>
          let '(log, final) := scheduler_loop qs rest in (Rejected i req :: log, final)
      end
  end.

(** [StartScheduler] from the sorted slice on: loop until the context is
    done, then raise [stopping]. *)
Definition StartScheduler (sorted : list PriorityQueue) (events : list SchedEvent)
  : list SchedLog * QueueManager :=
  let '(log, final) := scheduler_loop sorted events in
  (log, MkQueueManager final true).

(* ===================================================================== *)
(** ** Effects *)
(* ===================================================================== *)

(** [metrics.RequestMetrics] *)
Record RequestMetrics : Type := MkRequestMetrics {
  m_Model : string;
  m_InputTokens : Z;
  m_ProcessingTime : Z;
  m_RetryCount : Z;
  m_Tools : list string;
  m_EndpointPath : string;
  m_Priority : Z;
  m_Preempted : bool;
  m_StatusCode : Z
}.

(** What a goroutine does to the world outside the queue manager.  [w] is
    a response writer, [d] a [done] channel.  Lines printed to standard
    output are not recorded. *)
Inductive Effect : Type :=
| SetHeader (w : nat) (key value : string)
| AddHeader (w : nat) (key value : string)
| WriteHeader (w : nat) (status : Z)
| WriteBody (w : nat) (bytes : string)
| CloseDone (d : nat)
| Cancel (ctx : Context)
| Collect (m : RequestMetrics).

#[global] Instance Context_eq_dec : EqDecision Context.
Proof. solve_decision. Defined.

Definition is_close (e : Effect) : bool :=
  match e with CloseDone _ => true | _ => false end.

Definition is_write (e : Effect) : bool :=
  match e with
  | SetHeader _ _ _ | AddHeader _ _ _ | WriteHeader _ _ | WriteBody _ _ => true
  | _ => false
  end.

(** The literal [{"error":"<msg>"}]. *)
Definition error_json (msg : string) : string :=
  "{" +:+ dq +:+ "error" +:+ dq +:+ ":" +:+ dq +:+ msg +:+ dq +:+ "}".

Definition overloaded : string := "Service overloaded, please try again later".

Definition StatusOK : Z := 200.
Definition StatusBadRequest : Z := 400.
Definition StatusNotFound : Z := 404.
Definition StatusMethodNotAllowed : Z := 405.
Definition StatusTooManyRequests : Z := 429.
Definition StatusBadGateway : Z := 502.
Definition StatusServiceUnavailable : Z := 503.

(* ===================================================================== *)
(** ** processRequest: the preemption monitor *)
(* ===================================================================== *)

(** [req.Preempted = true; req.RetryCount++] *)
Definition mark_preempted (req : workRequest) : workRequest :=
  MkWorkRequest (Request req) (ResponseWriter req) (Done req) (PreemptCtx req)
    (PreemptCancel req) (StartTime req) (Model req) (InputTokens req)
    (ProcessingTime req) (Tools req) (int_add (RetryCount req) 1) true.

(** [newReq := &workRequest{...}], built from the marked request; the
    fields the literal leaves out are zero. *)
Definition retry_request (req : workRequest) : workRequest :=
  MkWorkRequest (Clone Background (Request req)) (ResponseWriter req) (Done req) None
    None (StartTime req) (Model req) (InputTokens req) 0 (Tools req) (RetryCount req)
    (Preempted req).

(** What the monitor does once [ShouldPreempt] has said yes: the effects
    in order, the shared request afterwards, its queue afterwards, and the
    retry request if one was pushed.  The monitor returns after this. *)
Record Preemption : Type := MkPreemption {
  pre_effects : list Effect;
  pre_req : workRequest;
  pre_queue : PriorityQueue;
  pre_retry : option workRequest
}.

Definition processRequest_preempt (ctx : Context) (queue : PriorityQueue) (req : workRequest)
  : Preemption :=
  if decide (1 < Priority queue) then
    let req' := mark_preempted req in
    let newReq := retry_request req' in
    match try_send (Requests queue) newReq with
    | Some c => MkPreemption [Cancel ctx] req' (with_requests queue c) (Some newReq)
    | None =>
        MkPreemption
          [Cancel ctx;
           WriteHeader (ResponseWriter req') StatusServiceUnavailable;
           WriteBody (ResponseWriter req') (error_json overloaded);
           CloseDone (Done req')]
          req' queue None
    end
  else MkPreemption [Cancel ctx] req queue None.

(** One firing of [time.After(50 * time.Millisecond)] in the monitor of the
    request running from the queue at position [i]: [None] when the loop
    goes on, otherwise the preemption and the manager after it. *)
Definition processRequest_tick (qm : QueueManager) (i : nat) (ctx : Context) (req : workRequest)
  : option (Preemption * QueueManager) :=
  match Queues qm !! i with
  | Some queue =>
      if ShouldPreempt qm (Priority queue) then
        let p := processRequest_preempt ctx queue req in
        Some (p, MkQueueManager (<[i := pre_queue p]> (Queues qm)) (stopping qm))
      else None
  | None => None
  end.

(* ===================================================================== *)
(** ** processRequest: the processor *)
(* ===================================================================== *)

(** What [ForwardRequest] returned. *)
Inductive Forwarded : Type :=
| ForwardError (msg : string)
| ForwardResponse (status : Z) (header : list (string * list string)) (body : string).

(** What the processor still has to do after its test of [ctx.Done()].
    [EmitCollect] reads the shared request when it runs, not before. *)
Inductive Instr : Type :=
| Emit (e : Effect)
| EmitCollect (status processingTime : Z).

Definition perform (req : workRequest) (queue : PriorityQueue) (i : Instr) : Effect :=
  match i with
  | Emit e => e
  | EmitCollect status processingTime =>
      Collect (MkRequestMetrics (Model req) (InputTokens req) processingTime
                 (RetryCount req) (Tools req) (URLPath (Request req)) (Priority queue)
                 (Preempted req) status)
  end.

(** The [select] on [ctx.Done()] after [ForwardRequest] has returned, and
    everything below it.  [cancelled] is what the probe finds; [collector]
    says whether [metrics.GetCollector()] is non-nil. *)
Definition processRequest_respond (cancelled collector : bool) (fwd : Forwarded)
    (processingTime : Z) (req : workRequest) : list Instr :=
  if cancelled then []
  else
    match fwd with
    | ForwardError msg =>
        [Emit (WriteHeader (ResponseWriter req) StatusBadGateway);
         Emit (WriteBody (ResponseWriter req)
                 (error_json ("Error forwarding request: " +:+ msg)));
         Emit (CloseDone (Done req))]
    | ForwardResponse status header body =>
        flat_map (fun kv => map (fun vv => Emit (AddHeader (ResponseWriter req) kv.1 vv)) kv.2)
                 header
        ++ [Emit (WriteHeader (ResponseWriter req) status);
            Emit (WriteBody (ResponseWriter req) body)]
        ++ (if collector then [EmitCollect status processingTime] else [])
        ++ [Emit (CloseDone (Done req))]
    end.

(* ===================================================================== *)
(** ** processRequest: processor and monitor side by side *)
(* ===================================================================== *)

(** One attempt is two goroutines over shared state: the processor, which
    is either inside [ForwardRequest], or working through what is left
    after its test of [ctx.Done()], or has returned; and the monitor, which
    is either in its [select], or on its way out through the queue-full
    branch, or has returned. *)
Inductive Actor : Type := Processor | Monitor.

Inductive ProcessorState : Type :=
| Forwarding
| Responding (todo : list Instr)
| ProcessorReturned.

Inductive MonitorState : Type :=
| Watching
| Leaving (todo : list Effect)
| MonitorReturned.

Record Attempt : Type := MkAttempt {
  at_qm : QueueManager;
  at_queue : nat;                 (* position of [queue] in [qm.Queues] *)
  at_req : workRequest;           (* the shared [*workRequest] *)
  at_ctx : Context;               (* [ctx], whose cancel function is [cancel] *)
  at_cancelled : bool;            (* [ctx.Done()] is closed *)
  at_closes : nat;                (* how often [close(req.Done)] has run *)
  at_collector : bool;
  at_processor : ProcessorState;
  at_monitor : MonitorState;
  at_trace : list (Actor * Effect)   (* oldest first *)
}.

(** Entry of [processRequest(req, queue)]: a fresh scope, stored on the
    request; the monitor is started; the processor calls
    [ForwardRequest]. *)
Definition processRequest (qm : QueueManager) (i : nat) (req : workRequest) (scope : nat)
    (collector : bool) : Attempt :=
  let ctx := WithCancel scope in
  let req' :=
    MkWorkRequest (Request req) (ResponseWriter req) (Done req) (Some ctx) (Some ctx)
      (StartTime req) (Model req) (InputTokens req) (ProcessingTime req) (Tools req)
      (RetryCount req) (Preempted req) in
  MkAttempt qm i req' ctx false 0 collector Forwarding Watching [].

(** An effect takes place: it joins the trace; cancelling the attempt's
    scope and closing the request's [done] also change the state. *)
Definition happen (who : Actor) (e : Effect) (a : Attempt) : Attempt :=
  let cancelled :=
    match e with
    | Cancel ctx => if decide (ctx = at_ctx a) then true else at_cancelled a
    | _ => at_cancelled a
    end in
  let closes :=
    match e with
    | CloseDone d => if decide (d = Done (at_req a)) then S (at_closes a) else at_closes a
    | _ => at_closes a
    end in
  MkAttempt (at_qm a) (at_queue a) (at_req a) (at_ctx a) cancelled closes (at_collector a)
    (at_processor a) (at_monitor a) (at_trace a ++ [(who, e)]).

Definition set_processor (s : ProcessorState) (a : Attempt) : Attempt :=
  MkAttempt (at_qm a) (at_queue a) (at_req a) (at_ctx a) (at_cancelled a) (at_closes a)
    (at_collector a) s (at_monitor a) (at_trace a).

Definition set_monitor (s : MonitorState) (a : Attempt) : Attempt :=
  MkAttempt (at_qm a) (at_queue a) (at_req a) (at_ctx a) (at_cancelled a) (at_closes a)
    (at_collector a) (at_processor a) s (at_trace a).

Definition set_shared (qm : QueueManager) (req : workRequest) (a : Attempt) : Attempt :=
  MkAttempt qm (at_queue a) req (at_ctx a) (at_cancelled a) (at_closes a)
    (at_collector a) (at_processor a) (at_monitor a) (at_trace a).

(** What can happen next. *)
Inductive Action : Type :=
| ForwardReturns (fwd : Forwarded) (processingTime : Z)
    (* the processor is back from [ForwardRequest] and probes [ctx.Done()] *)
| ProcessorStep   (* the processor does the next thing on its list, or returns *)
| MonitorSeesDone (* the monitor's [case <-req.Done] *)
| MonitorTick     (* the monitor's [case <-time.After(...)] *)
| MonitorStep     (* the monitor does the next thing on its list, or returns *)
| Arrival (i : nat) (req : workRequest).
    (* another goroutine's send on the queue at [i] succeeds *)

(** [None]: the action cannot happen in this state. *)
Definition exec (a : Attempt) (act : Action) : option Attempt :=
  match act with
  | ForwardReturns fwd processingTime =>
      match at_processor a with
      | Forwarding =>
          Some (set_processor
                  (Responding (processRequest_respond (at_cancelled a) (at_collector a) fwd
                                 processingTime (at_req a)))
                  a)
      | _ => None
      end
  | ProcessorStep =>
      match at_processor a, Queues (at_qm a) !! at_queue a with
      | Responding (i :: todo), Some queue =>
          Some (set_processor (Responding todo) (happen Processor (perform (at_req a) queue i) a))
      | Responding [], _ => Some (set_processor ProcessorReturned a)
      | _, _ => None
      end
  | MonitorSeesDone =>
      match at_monitor a with
      | Watching =>
          if decide (0 < at_closes a)%nat then Some (set_monitor MonitorReturned a) else None
      | _ => None
      end
  | MonitorTick =>
      match at_monitor a with
      | Watching =>
          match processRequest_tick (at_qm a) (at_queue a) (at_ctx a) (at_req a) with
          | None => Some a
          | Some (p, qm) =>
              match pre_effects p with
              | e :: todo =>
                  Some (set_monitor (Leaving todo) (happen Monitor e (set_shared qm (pre_req p) a)))
              | [] => Some (set_monitor MonitorReturned (set_shared qm (pre_req p) a))
              end
          end
      | _ => None
      end
  | MonitorStep =>
      match at_monitor a with
      | Leaving (e :: todo) => Some (set_monitor (Leaving todo) (happen Monitor e a))
      | Leaving [] => Some (set_monitor MonitorReturned a)
      | _ => None
      end
  | Arrival i req =>
      match offer (Queues (at_qm a)) i req with
      | Some qs => Some (set_shared (MkQueueManager qs (stopping (at_qm a))) (at_req a) a)
      | None => None
      end
  end.

Fixpoint run (a : Attempt) (schedule : list Action) : option Attempt :=
  match schedule with
  | [] => Some a
  | act :: rest =>
      match exec a act with
      | Some a' => run a' rest
      | None => None
      end
  end.

(** The effects of one actor in a trace. *)
Definition effects_of (who : Actor) (trace : list (Actor * Effect)) : list Effect :=
  omap (fun ev => match ev.1, who with
                  | Processor, Processor | Monitor, Monitor => Some ev.2
                  | _, _ => None
                  end) trace.

(** Some effect of the processor on a response writer stands after a
    cancellation of [ctx] in the trace. *)
Fixpoint writes_after_cancel (ctx : Context) (trace : list (Actor * Effect)) : bool :=
  match trace with
  | [] => false
  | (_, Cancel c) :: rest =>
      if decide (c = ctx) then existsb is_write (effects_of Processor rest)
      else writes_after_cancel ctx rest
  | _ :: rest => writes_after_cancel ctx rest
  end.

(* ===================================================================== *)
(** ** Ingress: RequestHandler.ServeHTTP *)
(* ===================================================================== *)

(** How the handler ends: it returns, or it blocks on [<-done]. *)
Inductive Served : Type :=
| Returned
| AwaitDone (d : nat).

Record Handled : Type := MkHandled {
  h_effects : list Effect;
  h_qm : QueueManager;
  h_served : Served
}.

Definition cors (w : nat) : list Effect :=
  [SetHeader w "Access-Control-Allow-Origin" "*";
   SetHeader w "Access-Control-Allow-Methods" "POST, GET, OPTIONS, PUT, DELETE";
   SetHeader w "Access-Control-Allow-Headers" "Content-Type, Authorization"].

Definition reply_error (w : nat) (status : Z) (msg : string) : list Effect :=
  [WriteHeader w status; WriteBody w (error_json msg)].

(** [portStr] after the two [strings.TrimPrefix] calls. *)
Definition port_string (host : string) : string :=
  TrimPrefix (TrimPrefix host "localhost:") "127.0.0.1:".

Section Ingress.

Variable json_parse : string -> option json.

(** [req := &workRequest{...}], with the metadata extracted from the body
    when there is one.  [w] is the response writer, [now] is [time.Now()]
    and [done] the channel made for this request. *)
Definition envelope (w : nat) (r : HttpRequest) (now : Z) (done : nat) : workRequest :=
  let md :=
    match Body r with
    | Some _ => ExtractRequestMetadata json_parse (Body r)
    | None => MkMetadata "" 0 [] None
    end in
  MkWorkRequest r w done None None now (md_model md) (md_inputTokens md) 0 (md_tools md) 0 false.

Definition ServeHTTP (qm : QueueManager) (w : nat) (r : HttpRequest) (now : Z) (done : nat)
  : Handled :=
  if String.eqb (Method r) "OPTIONS" then
    MkHandled (cors w ++ [WriteHeader w StatusOK]) qm Returned
  else if negb (String.eqb (Method r) "POST") && negb (String.eqb (Method r) "GET") then
    MkHandled (cors w ++ reply_error w StatusMethodNotAllowed "Method not allowed") qm Returned
  else
    match Atoi (port_string (Host r)) with
    | None => MkHandled (cors w ++ reply_error w StatusBadRequest "Invalid port") qm Returned
    | Some port =>
        match FindQueueByPort qm port with
        | None =>
            MkHandled
              (cors w ++ reply_error w StatusNotFound "No queue configured for this port")
              qm Returned
        | Some (i, _) =>
            match Body r with
            | Some (ReadErr _) =>
                MkHandled
                  (cors w ++ reply_error w StatusBadRequest "Failed to read request body")
                  qm Returned
            | _ =>
                match offer (Queues qm) i (envelope w r now done) with
                | Some qs => MkHandled (cors w) (MkQueueManager qs (stopping qm)) (AwaitDone done)
                | None =>
                    MkHandled (cors w ++ reply_error w StatusTooManyRequests overloaded)
                      qm Returned
                end
            end
        end
    end.

End Ingress.

(* ===================================================================== *)
(** ** Definitions used to state the properties *)
(* ===================================================================== *)

(** What is waiting on a queue, oldest first. *)
Definition pending (q : PriorityQueue) : list workRequest := buf (Requests q).

Definition pending_at (qs : list PriorityQueue) (i : nat) : list workRequest :=
  from_option pending [] (qs !! i).

(** What never changes about a queue: port, rank, flag and capacity. *)
Definition meta (q : PriorityQueue) : Z * Z * bool * nat :=
  (Port q, Priority q, Preemptive q, cap (Requests q)).

(** The requests a log shows dispatched from, and accepted by, the queue at
    position [i], in log order. *)
Definition dispatched_at (i : nat) (log : list SchedLog) : list workRequest :=
  omap (fun l => match l with
                 | Dispatched j req => if decide (j = i) then Some req else None
                 | _ => None
                 end) log.

Definition accepted_at (i : nat) (log : list SchedLog) : list workRequest :=
  omap (fun l => match l with
                 | Accepted j req => if decide (j = i) then Some req else None
                 | _ => None
                 end) log.

(** The retry request of a request that has been requeued [n] times over. *)
Definition requeued (n : nat) (req : workRequest) : workRequest :=
  Nat.iter n (fun r => retry_request (mark_preempted r)) req.

(** The processor has nothing left to do. *)
Definition finished (a : Attempt) : Prop :=
  at_processor a = Responding [] \/ at_processor a = ProcessorReturned.

(** A manager whose queues are those [NewQueueManager] makes for
    [endpoints], in any order and with anything waiting on them. *)
Definition made_for (endpoints : list Endpoint) (qm : QueueManager) : Prop :=
  meta <$> Queues qm ≡ₚ meta <$> Queues (NewQueueManager endpoints).

(** In the words of the specification: the Host header begins with the
    literal prefix [localhost:] or [127.0.0.1:] followed by a decimal
    port. *)
Definition is_digit (c : ascii) : bool :=
  match digit_of c with Some _ => true | None => false end.

Definition decimal (s : string) : bool :=
  negb (String.eqb s "") && forallb is_digit (list_ascii_of_string s).

Definition names_local_port (host : string) : bool :=
  match strip_prefix "localhost:" host, strip_prefix "127.0.0.1:" host with
  | Some port, _ => decimal port
  | None, Some port => decimal port
  | None, None => false
  end.

End Proxy.

Import OpenAI Proxy.

(* ===================================================================== *)
(** ** Package openai: the client *)
(* ===================================================================== *)

Module Client.

(** [Client]; of [HTTPClient] only the timeout, in seconds. *)
Record Client : Type := MkClient {
  BaseURL : string;
  APIKey : string;
  Timeout : Z
}.

Definition NewClient (baseURL apiKey : string) : Client := MkClient baseURL apiKey 300.

(** [strings.HasPrefix] *)
Definition HasPrefix (s prefix : string) : bool :=
  match strip_prefix prefix s with Some _ => true | None => false end.

(** The request [ForwardRequest] hands to the HTTP client. *)
Record Outgoing : Type := MkOutgoing {
  out_ctx : Context;
  out_method : string;
  out_url : string;
  out_header : list (string * string);
  out_body : option Reader
}.

Section Forward.

(** [net/http] is the environment.  [new_request_error method url] is the
    error of [http.NewRequestWithContext], if any (the context is never
    nil here); [transport req] is what [c.HTTPClient.Do(req)] returns. *)
Variable new_request_error : string -> string -> option string.
Variable transport : Outgoing -> Forwarded.

(** The request built when [http.NewRequestWithContext] succeeds. *)
Definition outgoing (c : Client) (ctx : Context) (method path : string) (body : option Reader)
  : Outgoing :=
  let path := if HasPrefix path "/" then path else "/" +:+ path in
  MkOutgoing ctx method (BaseURL c +:+ path)
    [("Authorization", "Bearer " +:+ APIKey c); ("Content-Type", "application/json")]
    body.

Definition ForwardRequest (c : Client) (ctx : Context) (method path : string)
    (body : option Reader) : Forwarded :=
  let req := outgoing c ctx method path body in
  match new_request_error method (out_url req) with
  | Some err => ForwardError ("error creating request: " +:+ err)
  | None =>
      match transport req with
      | ForwardError err => ForwardError ("error making request to OpenAI API: " +:+ err)
      | resp => resp
      end
  end.

End Forward.

End Client.

(* ===================================================================== *)
(** ** Package config *)
(* ===================================================================== *)

Module Config.

Record Config : Type := MkConfig {
  InfluxDBURL : string;
  InfluxToken : string;
  InfluxOrg : string;
  InfluxBucket : string;
  OpenAIAPIURL : string;
  OpenAIAPIKey : string;
  Endpoints : list Endpoint
}.

(** [if field == "" { field = fallback }] *)
Definition or_default (field fallback : string) : string :=
  if String.eqb field "" then fallback else field.

Section Load.

(** [os.ReadFile] and [json.Unmarshal] into a zero [Config] are the
    environment: the bytes of the file (or the error), and the struct the
    bytes decode to ([None]: the error). *)
Variable ReadFile : string -> Reader.
Variable Unmarshal : string -> option Config.

(** [LoadConfig]: the configuration, or the error. *)
Definition LoadConfig (filePath : string) : Config + string :=
  match ReadFile filePath with
  | ReadErr err => inr err
  | ReadOK data =>
      match Unmarshal data with
      | None => inr "invalid JSON"
      | Some config =>
          inl (MkConfig (InfluxDBURL config) (InfluxToken config)
                 (or_default (InfluxOrg config) "openaiorg")
                 (or_default (InfluxBucket config) "proxybucket")
                 (or_default (OpenAIAPIURL config) "https://api.openai.com/v1")
                 (OpenAIAPIKey config) (Endpoints config))
      end
  end.

End Load.

End Config.

(* ===================================================================== *)
(** ** Package metrics: the collector *)
(* ===================================================================== *)

Module Metrics.

(** [MetricsCollector]: what its InfluxDB client and write API were made
    with. *)
Record MetricsCollector : Type := MkMetricsCollector {
  mc_url : string;
  mc_token : string;
  mc_org : string;
  mc_bucket : string
}.

(** The package variables [collector] and [once]. *)
Record Package : Type := MkPackage {
  collector : option MetricsCollector;
  once : bool   (* [once.Do] has run *)
}.

Definition start : Package := MkPackage None false.

(** [NewMetricsCollector]: the function given to [once.Do] runs on the
    first call only; every call returns the package's [collector]. *)
Definition NewMetricsCollector (url token org bucket : string) (p : Package)
  : option MetricsCollector * Package :=
  let p' :=
    if once p then p
    else MkPackage (Some (MkMetricsCollector url token org bucket)) true in
  (collector p', p').

(** [GetCollector]: the collector, or the panic. *)
Definition GetCollector (p : Package) : MetricsCollector + string :=
  match collector p with
  | None => inr "metrics collector not initialized"
  | Some c => inl c
  end.

(** Calls of [NewMetricsCollector] one after the other, each with the
    arguments given as the collector they would make: what each call
    returns, and the package afterwards. *)
Fixpoint replay (calls : list MetricsCollector) (p : Package)
  : list (option MetricsCollector) * Package :=
  match calls with
  | [] => ([], p)
  | c :: rest =>
      let '(returned, p1) := NewMetricsCollector (mc_url c) (mc_token c) (mc_org c)
                               (mc_bucket c) p in
      let '(others, p2) := replay rest p1 in
      (returned :: others, p2)
  end.

End Metrics.

(* ===================================================================== *)
(** ** Further definitions used to state properties *)
(* ===================================================================== *)

(** No queue holds more than its capacity. *)
Definition within_capacity (qs : list PriorityQueue) : Prop :=
  Forall (fun q => (length (pending q) <= cap (Requests q))%nat) qs.

(** What the processor writes to the response writer [w] for an upstream
    response: every header value in order, the status, the body. *)
Definition response_writes (w : nat) (status : Z) (header : list (string * list string))
    (body : string) : list Effect :=
  flat_map (fun kv => map (fun vv => AddHeader w kv.1 vv) kv.2) header
  ++ [WriteHeader w status; WriteBody w body].

(** The writes and closes among some effects. *)
Definition visible (effects : list Effect) : list Effect :=
  filter (fun e => is_write e || is_close e = true) effects.

(** The writes and closes an instruction of the processor will make,
    whatever the shared request holds when it runs. *)
Definition instr_visible (i : Instr) : list Effect :=
  match i with
  | Emit e => visible [e]
  | EmitCollect _ _ => []
  end.

(** What the processor has written and closed, together with what the rest
    of its list will write and close. *)
Definition processor_total (a : Attempt) : option (list Effect) :=
  match at_processor a with
  | Forwarding => None
  | Responding todo =>
      Some (visible (effects_of Processor (at_trace a)) ++ flat_map instr_visible todo)
  | ProcessorReturned => Some (visible (effects_of Processor (at_trace a)))
  end.

(** What the monitor has done, together with what is left on its list. *)
Definition monitor_script (a : Attempt) : list Effect :=
  effects_of Monitor (at_trace a)
  ++ match at_monitor a with Leaving todo => todo | _ => [] end.

(** The metrics records among some effects. *)
Definition collected (effects : list Effect) : list RequestMetrics :=
  omap (fun e => match e with Collect m => Some m | _ => None end) effects.

(** A record describes the response [status] that took [processingTime]
    for the request [req] served from a queue of rank [rank]: preemption
    flag and retry count are those of [req], or those of [req] after one
    preemption. *)
Definition describes (req : workRequest) (rank status processingTime : Z)
    (m : RequestMetrics) : Prop :=
  m_StatusCode m = status /\ m_ProcessingTime m = processingTime
  /\ m_Priority m = rank
  /\ m_Model m = Model req /\ m_InputTokens m = InputTokens req /\ m_Tools m = Tools req
  /\ m_EndpointPath m = URLPath (Request req)
  /\ ((m_Preempted m = Preempted req /\ m_RetryCount m = RetryCount req)
      \/ (m_Preempted m = true /\ m_RetryCount m = int_add (RetryCount req) 1)).

(** The records the rest of the processor's list will collect: status and
    processing time of each. *)
Definition to_collect (todo : list Instr) : list (Z * Z) :=
  omap (fun i => match i with
                 | EmitCollect status processingTime => Some (status, processingTime)
                 | Emit _ => None
                 end) todo.

(** An instruction that hands no ready-made record to the collector. *)
Definition emits_no_record (i : Instr) : Prop :=
  match i with Emit (Collect _) => False | _ => True end.

(** What is left on the processor's list. *)
Definition remaining (a : Attempt) : list Instr :=
  match at_processor a with Responding todo => todo | _ => [] end.

(** Everything the monitor does when it preempts and finds its queue
    full. *)
Definition overload_reply (ctx : Context) (w d : nat) : list Effect :=
  [Cancel ctx; WriteHeader w StatusServiceUnavailable; WriteBody w (error_json overloaded);
   CloseDone d].

(** Both goroutines of an attempt are past the point where they could
    still answer: the processor will find (or has found) its scope
    cancelled, and the monitor has nothing left to do. *)
Definition abandoned (a : Attempt) : Prop :=
  ((at_processor a = Forwarding /\ at_cancelled a = true) \/ finished a)
  /\ (at_monitor a = Leaving [] \/ at_monitor a = MonitorReturned).

(** [fmt.Sprintf("%d", n)] for [0 <= n]: the decimal digits of [n], most
    significant first, in front of [rest].  [fuel] bounds the number of
    digits. *)
Definition digit_char (d : Z) : ascii := ascii_of_nat (Z.to_nat (48 + d)).

Fixpoint digits_onto (fuel : nat) (n : Z) (rest : string) : string :=
  match fuel with
  | O => rest
  | S fuel' =>
      if n <? 10 then String (digit_char n) rest
      else digits_onto fuel' (n / 10) (String (digit_char (n mod 10)) rest)
  end.

(** [fmt.Sprintf("%d", n)] for an [int]. *)
Definition Itoa (n : Z) : string :=
  if n <? 0 then String "-"%char (digits_onto 20 (- n) "") else digits_onto 20 n "".

(** [main]: the client is built from the loaded configuration. *)
Definition client_of (cfg : Config.Config) : Client.Client :=
  Client.NewClient (Config.OpenAIAPIURL cfg) (Config.OpenAIAPIKey cfg).

(** The request that the call
    [ForwardRequest(ctx, httpReq.Method, httpReq.URL.Path, httpReq.Body)] of
    an attempt hands to the HTTP client, [httpReq] being
    [req.Request.Clone(ctx)]. *)
Definition forward_call (c : Client.Client) (a : Attempt) : Client.Outgoing :=
  let httpReq := Clone (at_ctx a) (Request (at_req a)) in
  Client.outgoing c (ReqCtx httpReq) (Method httpReq) (URLPath httpReq) (Body httpReq).

(** [main]: the address the server of an endpoint listens on,
    [fmt.Sprintf(":%d", ep.Port)]. *)
Definition listen_addr (ep : Endpoint) : string := ":" +:+ Itoa (ep_Port ep).

(* ===================================================================== *)
(** ** Scenarios *)
(* ===================================================================== *)

(** The configuration and the requests of the repository's tests, used
    below to run the model. *)
Module Scenario.

(** Ports 8080 (rank 1, preemptive) and 8081 (rank 2). *)
Definition endpoints : list Endpoint :=
  [MkEndpoint 8080 1 true; MkEndpoint 8081 2 false].

Definition manager : QueueManager := NewQueueManager endpoints.

(** [{"model":"gpt-4","messages":[{"role":"user","content":"Hello there,
    how are you today?"}]}] and what it decodes to. *)
Definition chat_body : string :=
  "{" +:+ dq +:+ "model" +:+ dq +:+ ":" +:+ dq +:+ "gpt-4" +:+ dq +:+ ","
  +:+ dq +:+ "messages" +:+ dq +:+ ":[{" +:+ dq +:+ "role" +:+ dq +:+ ":" +:+ dq +:+ "user"
  +:+ dq +:+ "," +:+ dq +:+ "content" +:+ dq +:+ ":" +:+ dq
  +:+ "Hello there, how are you today?" +:+ dq +:+ "}]}".

Definition chat_json : json :=
  JObject
    (<["model" := JString "gpt-4"]>
       (<["messages" :=
            JArray [JObject (<["role" := JString "user"]>
                               (<["content" := JString "Hello there, how are you today?"]> ∅))]]>
          ∅)).

(** A decoder that knows this one document. *)
Definition decode (bytes : string) : option json :=
  if String.eqb bytes chat_body then Some chat_json else None.

Definition http (method host : string) (body : option Reader) : HttpRequest :=
  MkHttpRequest method host "/v1/chat/completions" body Background.

(** Request A arrives on port 8081, request B on port 8080, request C on
    port 8080 after B; each has its own response writer and done channel. *)
Definition request_A : workRequest :=
  MkWorkRequest (http "POST" "localhost:8081" (Some (ReadOK chat_body))) 1 1 None None 1000
    "gpt-4" 7 0 [] 0 false.

Definition request_B : workRequest :=
  MkWorkRequest (http "POST" "localhost:8080" (Some (ReadOK chat_body))) 2 2 None None 2000
    "gpt-4" 7 0 [] 0 false.

Definition request_C : workRequest :=
  MkWorkRequest (http "POST" "localhost:8080" None) 3 3 None None 3000 "" 0 0 [] 0 false.

(** The queues as configured in another order, A and B waiting. *)
Definition unsorted : list PriorityQueue :=
  [MkPriorityQueue 8081 2 false (MkChan [request_A] 100);
   MkPriorityQueue 8080 1 true (MkChan [request_B] 100)].

(** The rank-2 queue of the requeue tests: capacity 1, empty or full. *)
Definition small_queue (waiting : list workRequest) : PriorityQueue :=
  MkPriorityQueue 8081 2 false (MkChan waiting 1).

(** Request A after as many preemptions as an [int] can count. *)
Definition request_A_worn : workRequest :=
  MkWorkRequest (Request request_A) 1 1 None None 1000 "gpt-4" 7 0 [] int_max true.

(** The upstream answers 200 with body [{"id":"r1"}]. *)
Definition upstream_ok : Forwarded :=
  ForwardResponse 200 [] ("{" +:+ dq +:+ "id" +:+ dq +:+ ":" +:+ dq +:+ "r1" +:+ dq +:+ "}").

(** A's processor passes its test of [ctx.Done()]; B arrives on the rank-1
    queue; A's monitor ticks; A's processor carries on to the end. *)
Definition late_cancel : list Action :=
  [ForwardReturns upstream_ok 5; Arrival 0 request_B; MonitorTick;
   ProcessorStep; ProcessorStep; ProcessorStep; ProcessorStep; ProcessorStep; MonitorStep].

(** An attempt that nothing interferes with: the upstream answers and the
    processor works through its list. *)
Definition undisturbed : list Action :=
  [ForwardReturns upstream_ok 6;
   ProcessorStep; ProcessorStep; ProcessorStep; ProcessorStep; ProcessorStep].

(** B arrives and A's monitor cancels while A's processor is still inside
    [ForwardRequest]; then the call returns. *)
Definition early_cancel : list Action := [Arrival 0 request_B; MonitorTick].

Definition after_early_cancel : list Action :=
  [ForwardReturns upstream_ok 5; ProcessorStep; MonitorStep].

(** A configuration with a queue ranked above rank 1: port 9000 (rank 0,
    preemptive) with C waiting, and port 8080 (rank 1). *)
Definition urgent_manager : QueueManager :=
  MkQueueManager
    [MkPriorityQueue 9000 0 true (MkChan [request_C] 100);
     MkPriorityQueue 8080 1 true (MkChan [] 100)]
    false.

(** A configuration file that names the endpoints and the key, and
    nothing else. *)
Definition config_file : Config.Config :=
  Config.MkConfig "" "" "" "" "" "sk-test" endpoints.

Definition read_config (filePath : string) : Reader :=
  if String.eqb filePath "config.json" then ReadOK "{...}" else ReadErr "no such file".

Definition decode_config (data : string) : option Config.Config :=
  if String.eqb data "{...}" then Some config_file else None.

(** The queues of [unsorted] in ascending rank. *)
Definition ascending : list PriorityQueue :=
  [MkPriorityQueue 8080 1 true (MkChan [request_B] 100);
   MkPriorityQueue 8081 2 false (MkChan [request_A] 100)].

End Scenario.


(* ===================================================================== *)
(** * Properties of the queue manager *)
(* ===================================================================== *)

Section QueueManagerFacts.

Implicit Types (q : PriorityQueue) (qs : list PriorityQueue) (req : workRequest).

Lemma outranks_true r q :
  outranks r q = true <-> Priority q < r /\ Preemptive q = true /\ pending q <> [].
Proof.
  unfold outranks, pending, chan_len.
  rewrite !andb_true_iff, Z.ltb_lt, Nat.ltb_lt.
  destruct (buf (Requests q)); simpl; intuition (try lia; try congruence).
Qed.

Lemma any_outranks_true r qs :
  any_outranks r qs = true <-> exists q, q ∈ qs /\ outranks r q = true.
Proof.
  induction qs as [|q0 qs IH]; simpl.
  - split; [discriminate|]. intros (q & Hin & _). by apply elem_of_nil in Hin.
  - destruct (outranks r q0) eqn:E.
    + split; [|done]. intros _. exists q0. split; [left|done].
    + rewrite IH. split.
      * intros (q & Hin & Hq). exists q. split; [by right|done].
      * intros (q & Hin & Hq). apply elem_of_cons in Hin as [->|Hin]; [congruence|eauto].
Qed.

(** C1.  While the manager is not stopping, [ShouldPreempt r] answers true
    exactly when some queue has a rank strictly below [r], is preemptive
    and has a request waiting; once the manager is stopping the answer is
    false for every rank, and the manager is stopping once [StartScheduler]
    has returned. *)
Theorem ShouldPreempt_characterised (qm : QueueManager) (r : Z) :
  (stopping qm = false ->
     (ShouldPreempt qm r = true <->
      exists q, q ∈ Queues qm /\ Priority q < r /\ Preemptive q = true /\ pending q <> []))
  /\ (stopping qm = true -> ShouldPreempt qm r = false)
  /\ (forall sorted events, ShouldPreempt (StartScheduler sorted events).2 r = false).
Proof.
  unfold ShouldPreempt. split_and!.
  - intros ->. rewrite any_outranks_true. split.
    + intros (q & Hin & Hq). exists q. split; [done|]. by apply outranks_true.
    + intros (q & Hin & Hq). exists q. split; [done|]. by apply outranks_true.
  - by intros ->.
  - intros sorted events. unfold StartScheduler.
    by destruct (scheduler_loop sorted events).
Qed.

End QueueManagerFacts.

(* ===================================================================== *)
(** * Properties of the scheduler loop *)
(* ===================================================================== *)

Section SchedulerFacts.

Implicit Types (q : PriorityQueue) (qs : list PriorityQueue) (req : workRequest).

Lemma try_recv_Some q req c :
  try_recv (Requests q) = Some (req, c) ->
  exists rest, pending q = req :: rest /\ c = MkChan rest (cap (Requests q)).
Proof.
  unfold try_recv, pending. destruct (buf (Requests q)) as [|x rest]; [done|].
  intros [= -> <-]. by exists rest.
Qed.

Lemma try_recv_None q : try_recv (Requests q) = None -> pending q = [].
Proof. unfold try_recv, pending. by destruct (buf (Requests q)). Qed.

(** A scan that dispatches: the request is the head of the queue at [i],
    every queue before [i] is empty, and only that head is removed. *)
Lemma scan_Some qs req i qs' :
  scan qs = Some (req, i, qs') ->
  exists q rest,
    qs !! i = Some q /\ pending q = req :: rest
    /\ (forall j q', (j < i)%nat -> qs !! j = Some q' -> pending q' = [])
    /\ qs' = <[i := with_requests q (MkChan rest (cap (Requests q)))]> qs.
Proof.
  revert req i qs'. induction qs as [|q0 qs IH]; intros req i qs'; simpl; [done|].
  destruct (try_recv (Requests q0)) as [[r c]|] eqn:E.
  - intros [= <- <- <-]. apply try_recv_Some in E as (rest & Hp & ->).
    exists q0, rest. split_and!; try done. intros j q' Hj. lia.
  - apply try_recv_None in E.
    destruct (scan qs) as [[[r k] rest']|] eqn:Es; [|done].
    intros [= <- <- <-]. destruct (IH _ _ _ eq_refl) as (q & rest & Hq & Hp & Hbefore & ->).
    exists q, rest. split_and!; try done.
    intros [|j] q' Hj; simpl; [by intros [= <-]|]. apply Hbefore. lia.
Qed.

(** A scan that dispatches nothing: every queue is empty. *)
Lemma scan_None qs : scan qs = None -> Forall (fun q => pending q = []) qs.
Proof.
  induction qs as [|q0 qs IH]; simpl; [constructor|].
  destruct (try_recv (Requests q0)) as [[r c]|] eqn:E; [done|].
  destruct (scan qs) as [[[r k] rest']|]; [done|].
  intros _. constructor; [by apply try_recv_None|by apply IH].
Qed.

(** In an ascending slice the scan never passes over a waiting request of a
    better rank. *)
Lemma scan_strict_priority qs req i qs' q :
  StronglySorted rank_le qs ->
  scan qs = Some (req, i, qs') -> qs !! i = Some q ->
  forall q', q' ∈ qs -> Priority q' < Priority q -> pending q' = [].
Proof.
  intros Hsorted. revert req i qs'.
  induction Hsorted as [|q0 qs Hs IH Hall]; intros req i qs'; simpl; [done|].
  destruct (try_recv (Requests q0)) as [[r c]|] eqn:E.
  - intros [= <- <- <-] [= <-] q' Hin Hlt.
    apply elem_of_cons in Hin as [->|Hin]; [lia|].
    rewrite Forall_forall in Hall. specialize (Hall q' Hin). unfold rank_le in Hall. lia.
  - apply try_recv_None in E.
    destruct (scan qs) as [[[r k] rest']|] eqn:Es; [|done].
    intros [= <- <- <-]. simpl. intros Hq q' Hin Hlt.
    apply elem_of_cons in Hin as [->|Hin]; [done|]. by eapply IH.
Qed.

Lemma with_requests_meta q c :
  cap c = cap (Requests q) -> meta (with_requests q c) = meta q.
Proof. unfold meta. simpl. by intros ->. Qed.

Lemma insert_meta qs i q q' :
  qs !! i = Some q -> meta q' = meta q -> meta <$> (<[i := q']> qs) = meta <$> qs.
Proof.
  intros Hq Hm. rewrite list_fmap_insert, Hm.
  apply list_insert_id. by rewrite list_lookup_fmap, Hq.
Qed.

(** Neither a scan nor a send changes port, rank, flag or capacity of any
    queue, or the order of the slice. *)
Lemma scan_meta qs req i qs' : scan qs = Some (req, i, qs') -> meta <$> qs' = meta <$> qs.
Proof.
  intros H. apply scan_Some in H as (q & rest & Hq & _ & _ & ->).
  by apply (insert_meta _ _ q).
Qed.

Lemma offer_Some qs i req qs' :
  offer qs i req = Some qs' ->
  exists q, qs !! i = Some q /\ (length (pending q) < cap (Requests q))%nat
    /\ qs' = <[i := with_requests q (MkChan (pending q ++ [req]) (cap (Requests q)))]> qs.
Proof.
  unfold offer, try_send, chan_len, pending. destruct (qs !! i) as [q|]; [|done].
  case_decide; [|done]. intros [= <-]. by exists q.
Qed.

Lemma offer_None qs i req q :
  qs !! i = Some q -> offer qs i req = None <-> (cap (Requests q) <= length (pending q))%nat.
Proof.
  unfold offer, try_send, chan_len, pending. intros ->. case_decide; split; (done || lia).
Qed.

Lemma offer_meta qs i req qs' : offer qs i req = Some qs' -> meta <$> qs' = meta <$> qs.
Proof.
  intros H. apply offer_Some in H as (q & Hq & _ & ->). by apply (insert_meta _ _ q).
Qed.

Lemma scheduler_loop_meta events qs :
  meta <$> (scheduler_loop qs events).2 = meta <$> qs.
Proof.
  revert qs. induction events as [|[|i req] events IH]; intros qs; simpl; [done| |].
  - destruct (scan qs) as [[[r k] qs']|] eqn:E; [|done].
    specialize (IH qs'). destruct (scheduler_loop qs' events). simpl in *.
    rewrite IH. by eapply scan_meta.
  - destruct (offer qs i req) as [qs'|] eqn:E.
    + specialize (IH qs'). destruct (scheduler_loop qs' events). simpl in *.
      rewrite IH. by eapply offer_meta.
    + specialize (IH qs). by destruct (scheduler_loop qs events).
Qed.

(** Being ascending is a matter of the ranks alone. *)
Lemma sorted_of_meta qs qs' :
  meta <$> qs' = meta <$> qs -> StronglySorted rank_le qs -> StronglySorted rank_le qs'.
Proof.
  intros Hm Hs. revert qs' Hm.
  induction Hs as [|q qs Hs IH Hall]; intros [|q' qs'] Hm; try done; [constructor|].
  rewrite !fmap_cons in Hm. apply (inj2 cons) in Hm as [Hq Hrest].
  constructor; [by apply IH|].
  rewrite Forall_forall in *. intros x Hx.
  apply list_elem_of_lookup in Hx as [k Hk].
  assert (exists y, qs !! k = Some y /\ meta y = meta x) as (y & Hy & Hxy).
  { assert (Hmk : (meta <$> qs) !! k = Some (meta x))
      by (by rewrite <- Hrest, list_lookup_fmap, Hk).
    rewrite list_lookup_fmap in Hmk. destruct (qs !! k) as [y|]; [|done].
    exists y. split; [done|]. simpl in Hmk. congruence. }
  assert (Hy' : rank_le q y) by (apply Hall; apply list_elem_of_lookup; eauto).
  unfold rank_le, meta in *. congruence.
Qed.

Lemma pending_at_insert qs i j q q' :
  qs !! i = Some q ->
  pending_at (<[i := q']> qs) j = if decide (j = i) then pending q' else pending_at qs j.
Proof.
  intros Hq. unfold pending_at. case_decide as E.
  - subst. rewrite list_lookup_insert_eq; [done|]. by eapply lookup_lt_Some.
  - by rewrite list_lookup_insert_ne.
Qed.

(** Per queue, what was waiting at the start followed by what was accepted
    since is what has been dispatched followed by what is waiting now. *)
Lemma scheduler_loop_fifo events qs i :
  pending_at qs i ++ accepted_at i (scheduler_loop qs events).1
  = dispatched_at i (scheduler_loop qs events).1 ++ pending_at (scheduler_loop qs events).2 i.
Proof.
  revert qs. induction events as [|[|j req] events IH]; intros qs; simpl.
  - by rewrite app_nil_r.
  - destruct (scan qs) as [[[r k] qs']|] eqn:E; [|apply IH].
    specialize (IH qs'). destruct (scheduler_loop qs' events) as [log final]. simpl in *.
    apply scan_Some in E as (q & rest & Hq & Hp & _ & ->).
    rewrite (pending_at_insert _ _ _ q) in IH by done.
    case_decide as Eki; subst.
    + rewrite decide_True by done. simpl. rewrite <- IH.
      unfold pending_at. rewrite Hq. simpl. by rewrite Hp.
    + by rewrite decide_False by done.
  - destruct (offer qs j req) as [qs'|] eqn:E.
    + specialize (IH qs'). destruct (scheduler_loop qs' events) as [log final]. simpl in *.
      apply offer_Some in E as (q & Hq & _ & ->).
      rewrite (pending_at_insert _ _ _ q) in IH by done.
      case_decide as Eji; subst.
      * rewrite decide_True by done. simpl. rewrite <- IH.
        unfold pending_at. rewrite Hq. simpl. unfold pending at 2. simpl.
        by rewrite <- app_assoc.
      * by rewrite decide_False by done.
    + specialize (IH qs). by destruct (scheduler_loop qs events) as [log final].
Qed.

Lemma sorted_lookup qs i j q q' :
  StronglySorted rank_le qs -> (i <= j)%nat ->
  qs !! i = Some q -> qs !! j = Some q' -> rank_le q q'.
Proof.
  intros Hs. revert i j. induction Hs as [|q0 qs Hs IH Hall]; intros i j Hij; [done|].
  destruct i as [|i], j as [|j]; simpl; try lia.
  - intros [= <-] [= <-]. unfold rank_le. lia.
  - intros [= <-] Hj. rewrite Forall_forall in Hall. apply Hall.
    apply list_elem_of_lookup. eauto.
  - apply IH. lia.
Qed.

Lemma offer_pending_empty qs i req qs' j :
  offer qs i req = Some qs' -> pending_at qs' j = [] -> pending_at qs j = [].
Proof.
  intros H. apply offer_Some in H as (q & Hq & _ & ->).
  rewrite (pending_at_insert _ _ _ q) by done. case_decide; [|done].
  unfold pending at 1. simpl. intros Hnil. by apply app_eq_nil in Hnil as [_ ?].
Qed.

Lemma deliver_pending_empty sends qs j :
  pending_at (deliver qs sends) j = [] -> pending_at qs j = [].
Proof.
  unfold deliver. revert qs. induction sends as [|[i req] sends IH]; intros qs; simpl; [done|].
  intros H. apply IH in H. destruct (offer qs i req) as [qs'|] eqn:E; simpl in H; [|done].
  by eapply offer_pending_empty.
Qed.

Lemma deliver_meta sends qs : meta <$> deliver qs sends = meta <$> qs.
Proof.
  unfold deliver. revert qs. induction sends as [|[i req] sends IH]; intros qs; simpl; [done|].
  rewrite IH. destruct (offer qs i req) as [qs'|] eqn:E; simpl; [|done]. by eapply offer_meta.
Qed.

Lemma lookup_of_meta qs qs' i q' :
  meta <$> qs' = meta <$> qs -> qs' !! i = Some q' ->
  exists q, qs !! i = Some q /\ meta q = meta q'.
Proof.
  intros Hm Hq'.
  assert (Hmi : (meta <$> qs) !! i = Some (meta q')) by (by rewrite <- Hm, list_lookup_fmap, Hq').
  rewrite list_lookup_fmap in Hmi. destruct (qs !! i) as [q|]; [|done].
  exists q. split; [done|]. simpl in Hmi. congruence.
Qed.

(** A scan with sends in between: whatever queue it dispatches from, the
    queues before it were empty when the scan began. *)
Lemma scan_amid_Some n k during qs req i qs' :
  scan_amid n k during qs = (Some (req, i), qs') ->
  (k <= i)%nat
  /\ (exists q, qs !! i = Some q)
  /\ forall j, (k <= j < i)%nat -> pending_at qs j = [].
Proof.
  revert k during qs. induction n as [|n IH]; intros k during qs; simpl; [done|].
  destruct (qs !! k) as [q|] eqn:Hq; [|done].
  destruct (try_recv (Requests q)) as [[r c]|] eqn:E.
  - intros [= <- <- <-]. split_and!; [lia|eauto|]. intros j Hj. lia.
  - apply try_recv_None in E. intros H.
    apply IH in H as (Hk & (q1 & Hq1) & Hbefore). split_and!; [lia| |].
    + destruct (lookup_of_meta qs _ _ _ (deliver_meta _ _) Hq1) as (q0 & Hq0 & _). eauto.
    + intros j Hj. destruct (decide (j = k)) as [->|Hne].
      * unfold pending_at. by rewrite Hq.
      * eapply deliver_pending_empty. apply Hbefore. lia.
Qed.

(** Without sends in between it is the scan of [processNextRequest]. *)
Lemma scan_amid_quiet n k qs :
  n = (length qs - k)%nat ->
  scan_amid n k [] qs
  = match scan (drop k qs) with
    | Some (req, i, rest) => (Some (req, (k + i)%nat), take k qs ++ rest)
    | None => (None, qs)
    end.
Proof.
  revert k. induction n as [|n IH]; intros k Hn; simpl.
  - rewrite drop_ge by lia. done.
  - destruct (lookup_lt_is_Some_2 qs k) as [q Hq]; [lia|].
    rewrite Hq. rewrite (drop_S _ _ _ Hq). simpl.
    destruct (try_recv (Requests q)) as [[r c]|] eqn:E.
    + rewrite Nat.add_0_r. f_equal. apply insert_take_drop. by eapply lookup_lt_Some.
    + unfold deliver. simpl. rewrite IH by lia.
      destruct (scan (drop (S k) qs)) as [[[r i] rest]|]; [|done].
      f_equal; [do 2 f_equal; lia|].
      rewrite (take_S_r _ _ _ Hq). by rewrite <- app_assoc.
Qed.

(** [sortByPriority] always has an outcome. *)
Lemma sortByPriority_total qs : sortByPriority qs (sorted_queues qs).
Proof.
  split; [apply merge_sort_Permutation|apply StronglySorted_merge_sort; apply _].
Qed.

(** C2.  Let the scheduler sort its queues and then run through any
    sequence of loop passes and of sends by other goroutines.  In the state
    reached, (1) the slice the next pass scans is in ascending rank order;
    (2) that pass dispatches the head of the first non-empty queue and
    removes nothing else, every queue earlier in the slice being empty, so
    that no request is waiting at a strictly better rank (in particular
    none at rank k when a request of rank k+1 is dispatched), and it
    dispatches nothing only when every queue is empty; (3) each queue has
    been served in the order in which its requests were enqueued; (4) when
    other goroutines send while the pass is probing, the queue it
    dispatches from is still such that every queue of a strictly better
    rank was empty when the pass began. *)
Theorem scheduler_priority_scan_fifo
    (before sorted : list PriorityQueue) (events : list SchedEvent) :
  sortByPriority before sorted ->
  let log := (scheduler_loop sorted events).1 in
  let now := (scheduler_loop sorted events).2 in
  StronglySorted rank_le now
  /\ match processNextRequest (MkQueueManager now false) with
     | (Some (req, i), after) =>
         exists q rest,
           now !! i = Some q /\ pending q = req :: rest
           /\ (forall j q', (j < i)%nat -> now !! j = Some q' -> pending q' = [])
           /\ (forall q', q' ∈ now -> Priority q' < Priority q -> pending q' = [])
           /\ Queues after = <[i := with_requests q (MkChan rest (cap (Requests q)))]> now
     | (None, after) =>
         Forall (fun q => pending q = []) now /\ Queues after = now
     end
  /\ (forall i,
        pending_at sorted i ++ accepted_at i log = dispatched_at i log ++ pending_at now i)
  /\ (forall during req i after,
        scan_amid (length now) 0 during now = (Some (req, i), after) ->
        exists q,
          now !! i = Some q
          /\ (forall j q', (j < i)%nat -> now !! j = Some q' -> pending q' = [])
          /\ (forall q', q' ∈ now -> Priority q' < Priority q -> pending q' = [])).
Proof.
  intros [_ Hsorted] log now.
  assert (Hnow : StronglySorted rank_le now).
  { eapply sorted_of_meta; [|exact Hsorted]. apply scheduler_loop_meta. }
  split; [done|]. split; [|split; [intros i; apply scheduler_loop_fifo|]].
  - unfold processNextRequest. simpl.
    destruct (scan now) as [[[req i] after]|] eqn:E; [|split; [by apply scan_None|done]].
    destruct (scan_Some _ _ _ _ E) as (q & rest & Hq & Hp & Hbefore & ->).
    exists q, rest. split_and!; try done.
    by eapply scan_strict_priority.
  - intros during req i after E.
    apply scan_amid_Some in E as (_ & (q & Hq) & Hbefore).
    assert (Hempty : forall j q', (j < i)%nat -> now !! j = Some q' -> pending q' = []).
    { intros j q' Hj Hq'. specialize (Hbefore j ltac:(lia)).
      unfold pending_at in Hbefore. by rewrite Hq' in Hbefore. }
    exists q. split_and!; [done|done|].
    intros q' Hin Hlt. apply list_elem_of_lookup in Hin as [j Hj].
    destruct (decide (j < i)%nat) as [Hji|Hji]; [by eapply Hempty|].
    pose proof (sorted_lookup _ i j q q' Hnow ltac:(lia) Hq Hj) as Hle.
    unfold rank_le in Hle. lia.
Qed.

End SchedulerFacts.

(* ===================================================================== *)
(** * Properties of the preemption monitor *)
(* ===================================================================== *)

Section MonitorFacts.

Implicit Types (q queue : PriorityQueue) (req : workRequest) (ctx : Context).

Lemma wrap_int_id z : int_min <= z <= int_max -> wrap_int z = z.
Proof.
  unfold wrap_int, int_min, int_max. intros H.
  rewrite Z.mod_small by lia. lia.
Qed.

Lemma int_add_no_overflow a b :
  int_min <= a + b <= int_max -> int_add a b = a + b.
Proof. apply wrap_int_id. Qed.

Lemma try_send_room queue req :
  (length (pending queue) < cap (Requests queue))%nat ->
  try_send (Requests queue) req
  = Some (MkChan (pending queue ++ [req]) (cap (Requests queue))).
Proof. intros H. unfold try_send, chan_len. by rewrite decide_True. Qed.

Lemma try_send_full queue req :
  (cap (Requests queue) <= length (pending queue))%nat ->
  try_send (Requests queue) req = None.
Proof.
  intros H. unfold try_send, chan_len. rewrite decide_False; [done|]. unfold pending in H. lia.
Qed.

Lemma requeued_StartTime n req : StartTime (requeued n req) = StartTime req.
Proof. induction n as [|n IH]; [done|]. exact IH. Qed.

Lemma requeued_Done n req :
  Done (requeued n req) = Done req /\ ResponseWriter (requeued n req) = ResponseWriter req.
Proof. induction n as [|n IH]; [done|]. exact IH. Qed.

Lemma requeued_RetryCount n req :
  int_min <= RetryCount req -> RetryCount req + Z.of_nat n <= int_max ->
  RetryCount (requeued n req) = RetryCount req + Z.of_nat n.
Proof.
  intros Hlo. induction n as [|n IH]; intros Hhi; [simpl; lia|].
  change (RetryCount (requeued (S n) req)) with (int_add (RetryCount (requeued n req)) 1).
  rewrite IH by lia. rewrite int_add_no_overflow; lia.
Qed.

(** C3, as the code has it.  When the monitor preempts a request running
    from a queue of rank above 1 that has room, it cancels the attempt and
    pushes one retry request to the back of that same queue, writing
    nothing.  The retry has the response writer,
    the done channel, the start time, the model, the input tokens and the
    tools of the original, is marked preempted, and carries a clone of the
    original HTTP request under the background context.  Its retry count is
    the original's plus one in Go's [int] arithmetic: exactly one more as
    long as the original is below the largest [int].  Over any number of
    requeues the start time stays what it was, and the retry count is the
    original one plus the number of requeues as long as that sum fits an
    [int]. *)
Theorem preempt_requeues_retry ctx queue req :
  1 < Priority queue ->
  (length (pending queue) < cap (Requests queue))%nat ->
  let p := processRequest_preempt ctx queue req in
  let retry := retry_request (mark_preempted req) in
  pre_retry p = Some retry
  /\ pending (pre_queue p) = pending queue ++ [retry]
  /\ meta (pre_queue p) = meta queue
  /\ (forall qm i, Queues qm !! i = Some queue ->
        ShouldPreempt qm (Priority queue) = true ->
        processRequest_tick qm i ctx req
        = Some (p, MkQueueManager (<[i := pre_queue p]> (Queues qm)) (stopping qm)))
  /\ pre_effects p = [Cancel ctx]
  /\ ResponseWriter retry = ResponseWriter req
  /\ Done retry = Done req
  /\ StartTime retry = StartTime req
  /\ Model retry = Model req
  /\ InputTokens retry = InputTokens req
  /\ Tools retry = Tools req
  /\ Preempted retry = true
  /\ Request retry = Clone Background (Request req)
  /\ RetryCount retry = int_add (RetryCount req) 1
  /\ (int_min <= RetryCount req < int_max -> RetryCount retry = RetryCount req + 1)
  /\ (forall n, StartTime (requeued n req) = StartTime req)
  /\ (forall n, int_min <= RetryCount req -> RetryCount req + Z.of_nat n <= int_max ->
                RetryCount (requeued n req) = RetryCount req + Z.of_nat n).
Proof.
  intros Hrank Hroom p retry.
  assert (Hp : p = MkPreemption [Cancel ctx] (mark_preempted req)
                     (with_requests queue (MkChan (pending queue ++ [retry])
                                             (cap (Requests queue))))
                     (Some retry)).
  { subst p retry. unfold processRequest_preempt.
    rewrite decide_True by done. by rewrite try_send_room. }
  split_and!; try (by rewrite Hp); try done.
  - intros qm i Hq Hpre. unfold processRequest_tick. by rewrite Hq, Hpre.
  - intros H. apply int_add_no_overflow. lia.
  - intros n. apply requeued_StartTime.
  - intros n. apply requeued_RetryCount.
Qed.

Lemma CloseDone_in_preempt ctx queue req d :
  CloseDone d ∈ pre_effects (processRequest_preempt ctx queue req) ->
  1 < Priority queue /\ (cap (Requests queue) <= length (pending queue))%nat /\ d = Done req.
Proof.
  unfold processRequest_preempt. case_decide as Hrank.
  - destruct (decide (length (pending queue) < cap (Requests queue))%nat) as [Hroom|Hfull].
    + rewrite try_send_room by done. simpl. rewrite elem_of_cons, elem_of_nil.
      intros [H|[]]. discriminate.
    + rewrite try_send_full by lia. simpl. rewrite !elem_of_cons, elem_of_nil.
      intros [H|[H|[H|[H|[]]]]]; try discriminate. injection H as ->. split_and!; [done|lia|done].
  - simpl. rewrite elem_of_cons, elem_of_nil. intros [H|[]]. discriminate.
Qed.

Lemma ServeHTTP_never_closes json_parse qm w r now done d :
  CloseDone d ∉ h_effects (ServeHTTP json_parse qm w r now done).
Proof.
  assert (Hall : Forall (fun e => is_close e = false)
                   (h_effects (ServeHTTP json_parse qm w r now done))).
  { unfold ServeHTTP, cors, reply_error.
    destruct (String.eqb (Method r) "OPTIONS"); [simpl; by repeat constructor|].
    destruct (negb (String.eqb (Method r) "POST") && negb (String.eqb (Method r) "GET"));
      [simpl; by repeat constructor|].
    destruct (Atoi (port_string (Host r))) as [port|]; [|simpl; by repeat constructor].
    destruct (FindQueueByPort qm port) as [[i q]|]; [|simpl; by repeat constructor].
    destruct (Body r) as [[bytes|msg]|]; [| simpl; by repeat constructor |].
    - destruct (offer _ _ _); simpl; by repeat constructor.
    - destruct (offer _ _ _); simpl; by repeat constructor. }
  intros Hin. rewrite Forall_forall in Hall. by specialize (Hall _ Hin).
Qed.

(** C4.  When the monitor preempts a request running from a queue of rank
    above 1 and the queue is full, it cancels the attempt, writes status
    503 and the body [{"error":"Service overloaded, please try again
    later"}] to the request's response writer and closes the request's
    done channel, in that order; nothing is pushed, and the queue and with
    it the whole manager stay as they were.  No other branch of the monitor
    closes a done channel, and the ingress handler never does. *)
Theorem preempt_queue_full ctx queue req :
  1 < Priority queue ->
  (cap (Requests queue) <= length (pending queue))%nat ->
  let p := processRequest_preempt ctx queue req in
  pre_effects p
  = [Cancel ctx;
     WriteHeader (ResponseWriter req) 503;
     WriteBody (ResponseWriter req) (error_json "Service overloaded, please try again later");
     CloseDone (Done req)]
  /\ pre_retry p = None
  /\ pre_queue p = queue
  /\ (forall qm i, Queues qm !! i = Some queue ->
        ShouldPreempt qm (Priority queue) = true ->
        processRequest_tick qm i ctx req = Some (p, qm))
  /\ (forall ctx' queue' req' d,
        CloseDone d ∈ pre_effects (processRequest_preempt ctx' queue' req') ->
        1 < Priority queue'
        /\ (cap (Requests queue') <= length (pending queue'))%nat /\ d = Done req')
  /\ (forall json_parse qm w r now done d,
        CloseDone d ∉ h_effects (ServeHTTP json_parse qm w r now done)).
Proof.
  intros Hrank Hfull p.
  assert (Hp : p = MkPreemption
                     [Cancel ctx;
                      WriteHeader (ResponseWriter req) 503;
                      WriteBody (ResponseWriter req) (error_json overloaded);
                      CloseDone (Done req)]
                     (mark_preempted req) queue None).
  { subst p. unfold processRequest_preempt.
    rewrite decide_True by done. by rewrite try_send_full. }
  split_and!; try (by rewrite Hp).
  - intros [qs st] i Hq Hpre. unfold processRequest_tick. simpl in *.
    rewrite Hq, Hpre. fold p. rewrite Hp. simpl. by rewrite list_insert_id.
  - intros ctx' queue' req' d. apply CloseDone_in_preempt.
  - intros. apply ServeHTTP_never_closes.
Qed.

Lemma any_outranks_positive qs :
  Forall (fun q => 1 <= Priority q) qs -> any_outranks 1 qs = false.
Proof.
  induction 1 as [|q qs Hq _ IH]; [done|]. simpl.
  unfold outranks. destruct (Z.ltb_spec (Priority q) 1); [lia|]. simpl. exact IH.
Qed.

(** C7.  On a queue of rank 1 a preemption does nothing but cancel: no
    retry request is built, nothing is pushed, nothing is written, and the
    monitor returns.  And when every rank is a positive integer,
    [ShouldPreempt 1] is false, so that the monitor of a request running
    from a rank-1 queue never preempts at all. *)
Theorem rank_one_never_requeued :
  (forall ctx queue req,
     Priority queue = 1 ->
     processRequest_preempt ctx queue req = MkPreemption [Cancel ctx] req queue None)
  /\ (forall qm,
        Forall (fun q => 1 <= Priority q) (Queues qm) ->
        ShouldPreempt qm 1 = false
        /\ forall i queue ctx req,
             Queues qm !! i = Some queue -> Priority queue = 1 ->
             processRequest_tick qm i ctx req = None).
Proof.
  split.
  - intros ctx queue req Hrank. unfold processRequest_preempt.
    rewrite decide_False; [done|lia].
  - intros qm Hpos.
    assert (Hno : ShouldPreempt qm 1 = false).
    { unfold ShouldPreempt. destruct (stopping qm); [done|]. by apply any_outranks_positive. }
    split; [done|]. intros i queue ctx req Hq Hrank.
    unfold processRequest_tick. by rewrite Hq, Hrank, Hno.
Qed.

End MonitorFacts.

(* ===================================================================== *)
(** * Properties of the request processor *)
(* ===================================================================== *)

Section ProcessorFacts.

Implicit Types (a : Attempt) (req : workRequest) (queue : PriorityQueue).

Lemma effects_of_app who t1 t2 :
  effects_of who (t1 ++ t2) = effects_of who t1 ++ effects_of who t2.
Proof. unfold effects_of. apply omap_app. Qed.

Lemma happen_Processor e a :
  effects_of Processor (at_trace (happen Processor e a))
  = effects_of Processor (at_trace a) ++ [e].
Proof. unfold happen. simpl. by rewrite effects_of_app. Qed.

Lemma happen_Monitor e a :
  effects_of Processor (at_trace (happen Monitor e a)) = effects_of Processor (at_trace a).
Proof. unfold happen. simpl. rewrite effects_of_app. simpl. by rewrite app_nil_r. Qed.

Lemma exec_finished a act a' :
  finished a -> exec a act = Some a' ->
  finished a' /\ effects_of Processor (at_trace a') = effects_of Processor (at_trace a).
Proof.
  intros Hfin. destruct act as [fwd t| | | | |i r]; simpl.
  - destruct Hfin as [-> | ->]; discriminate.
  - destruct Hfin as [-> | ->]; [|by destruct (Queues (at_qm a) !! at_queue a)].
    destruct (Queues (at_qm a) !! at_queue a); intros [= <-]; split; try done; by right.
  - destruct (at_monitor a); try done. case_decide; [|done]. by intros [= <-].
  - destruct (at_monitor a); try done.
    destruct (processRequest_tick _ _ _ _) as [[p qm]|]; [|by intros [= <-]].
    destruct (pre_effects p) as [|e todo]; intros [= <-]; [done|].
    split; [exact Hfin|]. simpl. rewrite effects_of_app. simpl. by rewrite app_nil_r.
  - destruct (at_monitor a) as [|[|e todo]|]; try done; intros [= <-]; [done|].
    split; [exact Hfin|]. simpl. rewrite effects_of_app. simpl. by rewrite app_nil_r.
  - destruct (offer _ _ _); [|done]. by intros [= <-].
Qed.

Lemma run_finished schedule a a' :
  finished a -> run a schedule = Some a' ->
  effects_of Processor (at_trace a') = effects_of Processor (at_trace a).
Proof.
  revert a. induction schedule as [|act schedule IH]; intros a Hfin; simpl.
  - by intros [= <-].
  - destruct (exec a act) as [a1|] eqn:E; [|done]. intros Hrun.
    destruct (exec_finished _ _ _ Hfin E) as [Hfin1 <-]. by apply IH.
Qed.

(** X1.  What holds of the test after [ForwardRequest]: when the probe of
    [ctx.Done()] finds the scope cancelled, the processor has nothing left
    to do, and whatever happens afterwards it adds no effect of its own:
    no write, no close. *)
Theorem cancelled_at_probe_is_silent a fwd processingTime schedule a' :
  at_processor a = Forwarding -> at_cancelled a = true ->
  run a (ForwardReturns fwd processingTime :: schedule) = Some a' ->
  effects_of Processor (at_trace a') = effects_of Processor (at_trace a).
Proof.
  intros Hfw Hc. simpl. rewrite Hfw, Hc. simpl. intros Hrun.
  by apply run_finished in Hrun; [|left].
Qed.

(** C6.  When the probe of [ctx.Done()] finds the scope not cancelled and
    [ForwardRequest] has returned an error with message [msg], what the
    processor does is: write status 502, write the body
    [{"error":"Error forwarding request: <msg>"}], close the done channel;
    in that order and nothing else, so that done is closed exactly once.
    Run on its own from a state in which the attempt is inside
    [ForwardRequest], that is what the attempt adds to the trace before the
    processor returns. *)
Theorem forward_error_gives_502 a queue msg processingTime :
  at_processor a = Forwarding -> at_cancelled a = false ->
  Queues (at_qm a) !! at_queue a = Some queue ->
  let req := at_req a in
  let reply :=
    [WriteHeader (ResponseWriter req) 502;
     WriteBody (ResponseWriter req) (error_json ("Error forwarding request: " +:+ msg));
     CloseDone (Done req)] in
  map (perform req queue)
      (processRequest_respond false (at_collector a) (ForwardError msg) processingTime req)
  = reply
  /\ length (filter (fun e => is_close e = true) reply) = 1%nat
  /\ exists a',
       run a [ForwardReturns (ForwardError msg) processingTime;
              ProcessorStep; ProcessorStep; ProcessorStep; ProcessorStep] = Some a'
       /\ at_trace a' = at_trace a ++ map (fun e => (Processor, e)) reply
       /\ at_closes a' = S (at_closes a)
       /\ at_processor a' = ProcessorReturned.
Proof.
  intros Hfw Hc Hq req reply. split; [done|]. split; [done|].
  destruct a as [qm i r ctx cancelled closes collector proc mon trace].
  simpl in *. subst. unfold exec. simpl. rewrite Hq. simpl.
  unfold happen, set_processor. simpl. rewrite Hq. simpl. rewrite Hq. simpl.
  rewrite decide_True by done.
  eexists. split; [done|]. simpl. split_and!; try done.
  by rewrite <- !app_assoc.
Qed.

End ProcessorFacts.

(* ===================================================================== *)
(** * Properties of the ingress handler *)
(* ===================================================================== *)

Section IngressFacts.

Variable json_parse : string -> option json.

Implicit Types (qm : QueueManager) (r : HttpRequest) (queue : PriorityQueue).

Lemma NewQueueManager_fresh endpoints :
  Forall (fun q => cap (Requests q) = 100%nat /\ pending q = [])
         (Queues (NewQueueManager endpoints)).
Proof. unfold NewQueueManager. simpl. apply Forall_forall. intros q Hq.
  apply list_elem_of_In, in_map_iff in Hq as (ep & <- & _). done.
Qed.

(** Every queue of a manager made for [endpoints] has capacity 100. *)
Lemma made_for_capacity endpoints qm queue :
  made_for endpoints qm -> queue ∈ Queues qm -> cap (Requests queue) = 100%nat.
Proof.
  intros Hmade Hin.
  assert (Hm : meta queue ∈ meta <$> Queues (NewQueueManager endpoints)).
  { rewrite <- Hmade. by apply list_elem_of_fmap_2. }
  apply list_elem_of_fmap in Hm as (q0 & Heq & Hq0).
  pose proof (NewQueueManager_fresh endpoints) as Hfresh.
  rewrite Forall_forall in Hfresh. destruct (Hfresh _ Hq0) as [Hcap _].
  unfold meta in Heq. congruence.
Qed.

Lemma FindQueueByPort_Some qm port i queue :
  FindQueueByPort qm port = Some (i, queue) ->
  Queues qm !! i = Some queue /\ Port queue = port.
Proof. unfold FindQueueByPort. intros H. by apply list_find_Some in H as (? & ? & _). Qed.

Lemma method_allowed r :
  Method r = "POST" \/ Method r = "GET" ->
  String.eqb (Method r) "OPTIONS" = false
  /\ negb (String.eqb (Method r) "POST") && negb (String.eqb (Method r) "GET") = false.
Proof. intros [-> | ->]; done. Qed.

(** C8, as the code has it.  Take a manager made by [NewQueueManager] and a
    GET or POST request whose Host names the port of one of its queues and
    whose body can be read.  That queue has capacity 100.  The handler makes
    one non-blocking send of the request's envelope on it.  If 100 requests
    are already waiting, the handler writes status 429 and the body
    [{"error":"Service overloaded, please try again later"}] and returns,
    and the manager is as it was.  Otherwise the envelope joins the back of
    that queue, nothing but the CORS headers has been written, and the
    handler blocks until the envelope's done channel is closed. *)
Theorem ingress_enqueue_or_429 endpoints qm w r now done port i queue :
  made_for endpoints qm ->
  Method r = "POST" \/ Method r = "GET" ->
  Atoi (port_string (Host r)) = Some port ->
  FindQueueByPort qm port = Some (i, queue) ->
  (forall msg, Body r <> Some (ReadErr msg)) ->
  let h := ServeHTTP json_parse qm w r now done in
  let req := envelope json_parse w r now done in
  cap (Requests queue) = 100%nat
  /\ ((100 <= length (pending queue))%nat ->
      h = MkHandled
            (cors w ++ [WriteHeader w 429;
                        WriteBody w (error_json "Service overloaded, please try again later")])
            qm Returned)
  /\ ((length (pending queue) < 100)%nat ->
      h = MkHandled (cors w)
            (MkQueueManager
               (<[i := with_requests queue (MkChan (pending queue ++ [req]) 100)]> (Queues qm))
               (stopping qm))
            (AwaitDone done)
      /\ Done req = done).
Proof.
  intros Hmade Hmethod Hport Hfind Hbody h req.
  destruct (FindQueueByPort_Some _ _ _ _ Hfind) as [Hq _].
  assert (Hcap : cap (Requests queue) = 100%nat).
  { eapply made_for_capacity; [done|]. apply list_elem_of_lookup. eauto. }
  destruct (method_allowed _ Hmethod) as [Hopt Hother].
  assert (Hh : h = match offer (Queues qm) i req with
                   | Some qs =>
                       MkHandled (cors w) (MkQueueManager qs (stopping qm)) (AwaitDone done)
                   | None =>
                       MkHandled (cors w ++ reply_error w StatusTooManyRequests overloaded)
                         qm Returned
                   end).
  { subst h req. unfold ServeHTTP. rewrite Hopt, Hother, Hport, Hfind.
    destruct (Body r) as [[bytes|msg]|] eqn:Eb; [done| |done]. by destruct (Hbody msg). }
  split; [done|]. split.
  - intros Hfull. rewrite Hh.
    replace (offer (Queues qm) i req) with (@None (list PriorityQueue)); [done|].
    symmetry. apply (offer_None _ _ _ queue); [done|lia].
  - intros Hroom. rewrite Hh. unfold offer. rewrite Hq, try_send_room by lia.
    by rewrite Hcap.
Qed.

(** C10, as the code has it.  For a GET or POST request, when what is left
    of the Host header after dropping a leading [localhost:] and then a
    leading [127.0.0.1:] is not something [strconv.Atoi] accepts, the
    handler writes status 400 and the body [{"error":"Invalid port"}] and
    returns; the manager is not looked at and stays as it was, whatever
    queues it has. *)
Theorem unparsable_host_gives_400 qm w r now done :
  Method r = "POST" \/ Method r = "GET" ->
  Atoi (port_string (Host r)) = None ->
  ServeHTTP json_parse qm w r now done
  = MkHandled (cors w ++ [WriteHeader w 400; WriteBody w (error_json "Invalid port")])
      qm Returned
  /\ forall qm',
       h_effects (ServeHTTP json_parse qm' w r now done)
       = h_effects (ServeHTTP json_parse qm w r now done).
Proof.
  intros Hmethod Hport. destruct (method_allowed _ Hmethod) as [Hopt Hother].
  assert (Hany : forall m, ServeHTTP json_parse m w r now done
                   = MkHandled (cors w ++ reply_error w StatusBadRequest "Invalid port")
                       m Returned).
  { intros m. unfold ServeHTTP. by rewrite Hopt, Hother, Hport. }
  split; [apply Hany|]. intros qm'. by rewrite !Hany.
Qed.

Lemma ServeHTTP_meta qm w r now done :
  meta <$> Queues (h_qm (ServeHTTP json_parse qm w r now done)) = meta <$> Queues qm.
Proof.
  unfold ServeHTTP.
  destruct (String.eqb (Method r) "OPTIONS"); [done|].
  destruct (negb (String.eqb (Method r) "POST") && negb (String.eqb (Method r) "GET")); [done|].
  destruct (Atoi (port_string (Host r))) as [port|]; [|done].
  destruct (FindQueueByPort qm port) as [[i q]|]; [|done].
  destruct (Body r) as [[bytes|msg]|]; [|done|];
    (destruct (offer _ _ _) as [qs|] eqn:E; [simpl; by eapply offer_meta|done]).
Qed.

(** X2.  The method gate of the handler: OPTIONS is answered 200 with the CORS
    headers, any method other than OPTIONS, POST and GET is answered 405
    with [{"error":"Method not allowed"}]; in both cases the handler returns
    at once and the manager stays as it was. *)
Theorem ingress_method_gate qm w r now done :
  (Method r = "OPTIONS" ->
   ServeHTTP json_parse qm w r now done
   = MkHandled (cors w ++ [WriteHeader w 200]) qm Returned)
  /\ (Method r <> "OPTIONS" -> Method r <> "POST" -> Method r <> "GET" ->
      ServeHTTP json_parse qm w r now done
      = MkHandled (cors w ++ [WriteHeader w 405; WriteBody w (error_json "Method not allowed")])
          qm Returned).
Proof.
  unfold ServeHTTP. split.
  - by intros ->.
  - intros Ho Hp Hg.
    apply String.eqb_neq in Ho, Hp, Hg. by rewrite Ho, Hp, Hg.
Qed.

(** X3.  A GET or POST request whose Host names a port no queue is bound to is
    answered 404 with [{"error":"No queue configured for this port"}]; the
    manager stays as it was. *)
Theorem ingress_unknown_port qm w r now done port :
  Method r = "POST" \/ Method r = "GET" ->
  Atoi (port_string (Host r)) = Some port ->
  (forall q, q ∈ Queues qm -> Port q <> port) ->
  ServeHTTP json_parse qm w r now done
  = MkHandled
      (cors w ++ [WriteHeader w 404;
                  WriteBody w (error_json "No queue configured for this port")])
      qm Returned.
Proof.
  intros Hmethod Hport Hnone. destruct (method_allowed _ Hmethod) as [Hopt Hother].
  unfold ServeHTTP. rewrite Hopt, Hother, Hport.
  replace (FindQueueByPort qm port) with (@None (nat * PriorityQueue)); [done|].
  symmetry. apply list_find_None, Forall_forall. exact Hnone.
Qed.

(** X4.  Port, rank, preemption flag and capacity of every queue, and the order
    of the queues, are the same after any run of the scheduler loop, after
    a preemption and after a request has been served. *)
Theorem queue_identity_is_immutable :
  (forall qs events, meta <$> (scheduler_loop qs events).2 = meta <$> qs)
  /\ (forall ctx queue req, meta (pre_queue (processRequest_preempt ctx queue req)) = meta queue)
  /\ (forall qm w r now done,
        meta <$> Queues (h_qm (ServeHTTP json_parse qm w r now done)) = meta <$> Queues qm).
Proof.
  split_and!.
  - intros qs events. apply scheduler_loop_meta.
  - intros ctx queue req. unfold processRequest_preempt.
    case_decide; [|done]. unfold try_send. by case_decide.
  - apply ServeHTTP_meta.
Qed.

End IngressFacts.

(* ===================================================================== *)
(** * Properties of the request classification *)
(* ===================================================================== *)

Section MetadataFacts.

Variable json_parse : string -> option json.

Lemma quarter_bounds s : 0 <= quarter s.
Proof. unfold quarter. apply Z.div_pos; lia. Qed.

Lemma sum_quarters_nonneg l : 0 <= foldr Z.add 0 (quarter <$> l).
Proof. induction l as [|s l IH]; csimpl; [lia|]. pose proof (quarter_bounds s). lia. Qed.

Lemma add_tokens_exact acc s :
  0 <= acc -> acc + quarter s <= int_max -> add_tokens acc s = acc + quarter s.
Proof.
  intros Hacc Hmax. unfold add_tokens, len. apply int_add_no_overflow.
  pose proof (quarter_bounds s). unfold quarter, int_min in *. lia.
Qed.

(** The loops of the code against the sum of the specification: as long as
    the sum fits an [int64], accumulating with wrap-around gives the
    sum. *)
Lemma foldl_counts (count : Z -> json -> Z) (text : json -> option string) l :
  (forall acc v, count acc v = match text v with
                               | Some s => add_tokens acc s
                               | None => acc
                               end) ->
  forall acc, 0 <= acc ->
    acc + foldr Z.add 0 (quarter <$> omap text l) <= int_max ->
    foldl count acc l = acc + foldr Z.add 0 (quarter <$> omap text l).
Proof.
  intros Hcount. induction l as [|v l IH]; intros acc Hacc Hmax; csimpl in *; [lia|].
  rewrite Hcount. destruct (text v) as [s|]; csimpl in *; [|by apply IH].
  pose proof (quarter_bounds s). pose proof (sum_quarters_nonneg (omap text l)).
  rewrite add_tokens_exact by lia. rewrite IH by lia. lia.
Qed.

Lemma count_message_text acc v :
  count_message acc v = match message_content v with
                        | Some s => add_tokens acc s
                        | None => acc
                        end.
Proof. unfold count_message, message_content. by destruct v. Qed.

Lemma count_element_text acc v :
  count_element acc v = match element_text v with
                        | Some s => add_tokens acc s
                        | None => acc
                        end.
Proof. done. Qed.

Lemma estimate_tokens_exact request :
  token_estimate request <= int_max -> estimate_tokens request = token_estimate request.
Proof.
  unfold token_estimate, estimate_tokens, text_inputs.
  destruct (request !! "messages") as [[| | | |messages|]|] eqn:Em; simpl;
    try (intros H; by rewrite (foldl_counts _ _ _ count_message_text) by (done || lia));
    (destruct (request !! "prompt") as [[| | |prompt|prompts|]|] eqn:Ep; simpl;
     try (intros H; by rewrite (foldl_counts _ _ _ count_element_text) by (done || lia));
     try (intros H; rewrite add_tokens_exact; lia);
     (destruct (request !! "input") as [[| | |input|inputs|]|] eqn:Ei; simpl;
      try (intros H; by rewrite (foldl_counts _ _ _ count_element_text) by (done || lia));
      try (intros H; rewrite add_tokens_exact; lia); done)).
Qed.

(** C9.  For a body that is well-formed JSON, the input token count
    [ExtractRequestMetadata] returns is the number of characters divided by
    4, summed over the text inputs of the body: over the string contents of
    the messages for a chat body; else the length of a string prompt
    divided by 4, or the sum over the string elements of an array prompt;
    else the same for the input.  The model returned is the string in the
    body's [model] field (the empty string when there is none).  Lengths
    are [len], and the sum is taken to fit an [int64], as it does for
    every body that fits in memory. *)
Theorem ExtractRequestMetadata_estimate (body : string) (j : json) :
  json_parse body = Some j ->
  token_estimate (fields_of j) <= int_max ->
  let md := ExtractRequestMetadata json_parse (Some (ReadOK body)) in
  md_inputTokens md = token_estimate (fields_of j)
  /\ md_model md = default "" (as_string (fields_of j !! "model")).
Proof.
  intros Hparse Hfits md. subst md. unfold ExtractRequestMetadata, Unmarshal.
  rewrite Hparse. destruct j as [| | | | |fields]; simpl; try done.
  split; [|done]. by apply estimate_tokens_exact.
Qed.

End MetadataFacts.

(* ===================================================================== *)
(** * The properties on the scenarios *)
(* ===================================================================== *)

Import Scenario.

(** With B waiting on the preemptive rank-1 queue, an attempt of rank 2 is
    to be preempted. *)
Lemma ShouldPreempt_characterised_witness :
  ShouldPreempt (MkQueueManager (sorted_queues unsorted) false) 2 = true.
Proof.
  apply (proj1 (ShouldPreempt_characterised (MkQueueManager (sorted_queues unsorted) false) 2)
           eq_refl).
  exists (MkPriorityQueue 8080 1 true (MkChan [request_B] 100)).
  split; [vm_compute; constructor|]. split; [simpl; lia|]. split; [reflexivity|discriminate].
Defined.

(** The queues of the scenario, sorted, then a send and a pass of the
    loop: the slice is still ascending. *)
Lemma scheduler_priority_scan_fifo_witness :
  sortByPriority unsorted (sorted_queues unsorted)
  /\ StronglySorted rank_le
       (scheduler_loop (sorted_queues unsorted) [Send 0 request_C; Iterate]).2.
Proof.
  split; [apply sortByPriority_total|].
  apply (scheduler_priority_scan_fifo unsorted (sorted_queues unsorted)
           [Send 0 request_C; Iterate] (sortByPriority_total unsorted)).
Defined.

(** The same queues over three passes: B, then C which was enqueued behind
    it on the rank-1 queue, and only then A from the rank-2 queue. *)
Example scheduler_dispatch_order :
  (scheduler_loop (sorted_queues unsorted) [Send 0 request_C; Iterate; Iterate; Iterate]).1
  = [Accepted 0 request_C; Dispatched 0 request_B; Dispatched 0 request_C;
     Dispatched 1 request_A].
Proof. reflexivity. Qed.

(** A preempted on the rank-2 queue with room: its retry is what waits
    there afterwards. *)
Lemma preempt_requeues_retry_witness :
  pending (pre_queue (processRequest_preempt (WithCancel 7) (small_queue []) request_A))
  = [retry_request (mark_preempted request_A)].
Proof.
  destruct (preempt_requeues_retry (WithCancel 7) (small_queue []) request_A)
    as (_ & H & _); [simpl; lia|simpl; lia|exact H].
Defined.

(** C3 as stated fails where the retry count is the largest [int]: the
    queue has rank 2 and room, the requeue succeeds, and the retry's count
    is the smallest [int], neither one more than the original's nor at
    least the original's. *)
Lemma retry_count_wraps_at_int_max :
  1 < Priority (small_queue [])
  /\ (length (pending (small_queue [])) < cap (Requests (small_queue [])))%nat
  /\ RetryCount request_A_worn = 9223372036854775807
  /\ exists retry,
       pre_retry (processRequest_preempt (WithCancel 7) (small_queue []) request_A_worn)
       = Some retry
       /\ pending (pre_queue (processRequest_preempt (WithCancel 7) (small_queue [])
                                request_A_worn)) = [retry]
       /\ RetryCount retry = -9223372036854775808
       /\ RetryCount retry <> RetryCount request_A_worn + 1
       /\ RetryCount retry < RetryCount request_A_worn.
Proof.
  split; [simpl; lia|]. split; [simpl; lia|]. split; [reflexivity|].
  eexists. split; [reflexivity|]. split; [reflexivity|]. split; [reflexivity|].
  split; [vm_compute; discriminate|reflexivity].
Defined.

(** A preempted on the rank-2 queue of capacity 1 while C fills it: the
    monitor answers 503. *)
Lemma preempt_queue_full_witness :
  pre_effects (processRequest_preempt (WithCancel 7) (small_queue [request_C]) request_A)
  = [Cancel (WithCancel 7);
     WriteHeader 1 503;
     WriteBody 1 (error_json "Service overloaded, please try again later");
     CloseDone 1].
Proof.
  destruct (preempt_queue_full (WithCancel 7) (small_queue [request_C]) request_A)
    as (H & _); [simpl; lia|simpl; lia|exact H].
Defined.

(** C5 on the code.  A runs from the rank-2 queue; the upstream answers and
    A's processor finds its scope not cancelled; B arrives on the
    preemptive rank-1 queue and A's monitor cancels the scope and requeues
    a retry.  The processor, past its only test, then writes status and
    body to A's response writer and closes A's done channel: after the
    cancel.  The retry, which shares that writer and that channel, is left
    waiting on the rank-2 queue; the scheduler dispatches B, then the
    retry, and the retry's processor writes to the same response writer and
    closes the same done channel once more. *)
Lemma processor_writes_after_late_cancel :
  exists a,
    run (processRequest manager 1 request_A 7 true) late_cancel = Some a
    /\ effects_of Monitor (at_trace a) = [Cancel (WithCancel 7)]
    /\ at_trace a
       = (Monitor, Cancel (WithCancel 7))
         :: map (fun e => (Processor, e))
              [WriteHeader 1 200;
               WriteBody 1 ("{" +:+ dq +:+ "id" +:+ dq +:+ ":" +:+ dq +:+ "r1" +:+ dq +:+ "}");
               Collect (MkRequestMetrics "gpt-4" 7 5 1 [] "/v1/chat/completions" 2 true 200);
               CloseDone 1]
    /\ writes_after_cancel (WithCancel 7) (at_trace a) = true
    /\ at_closes a = 1%nat
    /\ at_processor a = ProcessorReturned
    /\ at_monitor a = MonitorReturned
    /\ exists retry qm1 qm2 a2,
         pending_at (Queues (at_qm a)) 1 = [retry]
         /\ ResponseWriter retry = ResponseWriter request_A
         /\ Done retry = Done request_A
         /\ processNextRequest (at_qm a) = (Some (request_B, 0%nat), qm1)
         /\ processNextRequest qm1 = (Some (retry, 1%nat), qm2)
         /\ run (processRequest qm2 1 retry 8 true) undisturbed = Some a2
         /\ filter (fun e => is_write e || is_close e = true) (effects_of Processor (at_trace a2))
            = [WriteHeader 1 200;
               WriteBody 1 ("{" +:+ dq +:+ "id" +:+ dq +:+ ":" +:+ dq +:+ "r1" +:+ dq +:+ "}");
               CloseDone 1].
Proof.
  vm_compute. eexists. split; [reflexivity|]. split_and!; try reflexivity.
  do 4 eexists. split_and!; reflexivity.
Qed.

(** A's attempt, the upstream failing with "test error": 502. *)
Lemma forward_error_gives_502_witness :
  map (perform (at_req (processRequest manager 1 request_A 7 true))
         (MkPriorityQueue 8081 2 false (make_chan 100)))
      (processRequest_respond false true (ForwardError "test error") 5
         (at_req (processRequest manager 1 request_A 7 true)))
  = [WriteHeader 1 502;
     WriteBody 1 (error_json "Error forwarding request: test error");
     CloseDone 1].
Proof.
  destruct (forward_error_gives_502 (processRequest manager 1 request_A 7 true)
              (MkPriorityQueue 8081 2 false (make_chan 100)) "test error" 5)
    as (H & _); [reflexivity|reflexivity|reflexivity|exact H].
Defined.

(** In the scenario's manager, whose ranks are 1 and 2, nothing preempts an
    attempt of rank 1. *)
Lemma rank_one_never_requeued_witness : ShouldPreempt manager 1 = false.
Proof.
  apply (proj2 rank_one_never_requeued manager).
  repeat (constructor; [simpl; lia|]). constructor.
Defined.

(** The envelope the handler builds for A's HTTP request, with the
    estimate of the repository's own test: 31 characters, 7 tokens. *)
Example envelope_of_request_A :
  envelope decode 1 (http "POST" "localhost:8081" (Some (ReadOK chat_body))) 1000 1
  = request_A.
Proof. vm_compute. reflexivity. Qed.

(** A POST to port 8080 of the fresh manager is enqueued and the handler
    waits; the queue has capacity 100. *)
Lemma ingress_enqueue_or_429_witness :
  cap (Requests (MkPriorityQueue 8080 1 true (make_chan 100))) = 100%nat
  /\ h_served (ServeHTTP decode manager 2
                 (http "POST" "localhost:8080" (Some (ReadOK chat_body))) 2000 2)
     = AwaitDone 2.
Proof.
  destruct (ingress_enqueue_or_429 decode endpoints manager 2
              (http "POST" "localhost:8080" (Some (ReadOK chat_body))) 2000 2
              8080 0%nat (MkPriorityQueue 8080 1 true (make_chan 100)))
    as (Hcap & _ & Hroom).
  - unfold made_for. reflexivity.
  - left. reflexivity.
  - reflexivity.
  - reflexivity.
  - intros msg. discriminate.
  - split; [exact Hcap|]. destruct Hroom as [-> _]; [simpl; lia|reflexivity].
Defined.

(** C8 as stated fails for an OPTIONS request: port 8080 is configured and
    its queue is empty, yet the handler sends nothing to the queue and does
    not wait for a done channel; it answers 200 and returns. *)
Lemma options_request_is_not_enqueued :
  Atoi (port_string (Host (http "OPTIONS" "localhost:8080" None))) = Some 8080
  /\ FindQueueByPort manager 8080 = Some (0%nat, MkPriorityQueue 8080 1 true (make_chan 100))
  /\ ServeHTTP decode manager 1 (http "OPTIONS" "localhost:8080" None) 1000 1
     = MkHandled (cors 1 ++ [WriteHeader 1 200]) manager Returned
  /\ h_served (ServeHTTP decode manager 1 (http "OPTIONS" "localhost:8080" None) 1000 1)
     <> AwaitDone 1.
Proof. split_and!; [reflexivity|reflexivity|reflexivity|discriminate]. Qed.

(** The chat body of the repository's test: 7 tokens, model gpt-4. *)
Lemma ExtractRequestMetadata_estimate_witness :
  md_inputTokens (ExtractRequestMetadata decode (Some (ReadOK chat_body))) = 7
  /\ md_model (ExtractRequestMetadata decode (Some (ReadOK chat_body))) = "gpt-4".
Proof.
  destruct (ExtractRequestMetadata_estimate decode chat_body chat_json) as [Htokens Hmodel].
  - reflexivity.
  - vm_compute. discriminate.
  - split; [rewrite Htokens|rewrite Hmodel]; vm_compute; reflexivity.
Defined.

(** A POST whose Host is [example.com:8080] gets 400, although port 8080 is
    configured. *)
Lemma unparsable_host_gives_400_witness :
  ServeHTTP decode manager 1 (http "POST" "example.com:8080" None) 1000 1
  = MkHandled (cors 1 ++ [WriteHeader 1 400; WriteBody 1 (error_json "Invalid port")])
      manager Returned.
Proof.
  apply (unparsable_host_gives_400 decode manager 1 (http "POST" "example.com:8080" None)
           1000 1).
  - left. reflexivity.
  - reflexivity.
Defined.

(** C10 as stated fails for the Host [8080]: it does not begin with
    [localhost:] or [127.0.0.1:], yet the handler parses it as port 8080,
    looks up the queue of that port and enqueues the request there instead
    of answering 400. *)
Lemma bare_port_host_is_accepted :
  names_local_port "8080" = false
  /\ ServeHTTP decode manager 3 (http "POST" "8080" (Some (ReadOK chat_body))) 3000 3
     = MkHandled (cors 3)
         (MkQueueManager
            [MkPriorityQueue 8080 1 true
               (MkChan [MkWorkRequest (http "POST" "8080" (Some (ReadOK chat_body))) 3 3 None
                          None 3000 "gpt-4" 7 0 [] 0 false] 100);
             MkPriorityQueue 8081 2 false (make_chan 100)]
            false)
         (AwaitDone 3)
  /\ h_effects (ServeHTTP decode manager 3 (http "POST" "8080" (Some (ReadOK chat_body))) 3000 3)
     <> cors 3 ++ [WriteHeader 3 400; WriteBody 3 (error_json "Invalid port")].
Proof.
  split; [reflexivity|]. split; [vm_compute; reflexivity|vm_compute; discriminate].
Qed.

(** B arrives and A's monitor cancels while A's processor is still inside
    [ForwardRequest]: when the call returns, the processor finds the scope
    cancelled and does nothing. *)
Lemma cancelled_at_probe_is_silent_witness :
  exists a a',
    run (processRequest manager 1 request_A 7 true) early_cancel = Some a
    /\ run a after_early_cancel = Some a'
    /\ effects_of Processor (at_trace a') = effects_of Processor (at_trace a)
    /\ effects_of Processor (at_trace a') = [].
Proof.
  eexists. eexists. split; [vm_compute; reflexivity|]. split; [vm_compute; reflexivity|].
  split; [|reflexivity].
  apply (cancelled_at_probe_is_silent _ upstream_ok 5 [ProcessorStep; MonitorStep]);
    reflexivity.
Defined.

(** A PUT to a configured port: 405. *)
Lemma ingress_method_gate_witness :
  ServeHTTP decode manager 1 (http "PUT" "localhost:8080" None) 1000 1
  = MkHandled (cors 1 ++ [WriteHeader 1 405; WriteBody 1 (error_json "Method not allowed")])
      manager Returned.
Proof.
  apply (proj2 (ingress_method_gate decode manager 1 (http "PUT" "localhost:8080" None)
                  1000 1)); discriminate.
Defined.

(** A POST to port 9999, which no queue is bound to: 404. *)
Lemma ingress_unknown_port_witness :
  ServeHTTP decode manager 1 (http "POST" "localhost:9999" None) 1000 1
  = MkHandled
      (cors 1 ++ [WriteHeader 1 404;
                  WriteBody 1 (error_json "No queue configured for this port")])
      manager Returned.
Proof.
  apply (ingress_unknown_port decode manager 1 (http "POST" "localhost:9999" None) 1000 1
           9999).
  - left. reflexivity.
  - reflexivity.
  - intros q Hq. apply list_elem_of_In in Hq. simpl in Hq.
    destruct Hq as [<-|[<-|[]]]; discriminate.
Defined.

(* ===================================================================== *)
(** * Further properties of the queue manager *)
(* ===================================================================== *)

Section LookupFacts.

Implicit Types (q : PriorityQueue) (qs : list PriorityQueue) (req : workRequest).

Lemma any_outranks_perm r qs qs' : qs ≡ₚ qs' -> any_outranks r qs = any_outranks r qs'.
Proof.
  intros Hperm.
  destruct (any_outranks r qs) eqn:E1, (any_outranks r qs') eqn:E2; try done.
  - apply any_outranks_true in E1 as (q & Hin & Hq). rewrite Hperm in Hin.
    assert (any_outranks r qs' = true) by (apply any_outranks_true; eauto). congruence.
  - apply any_outranks_true in E2 as (q & Hin & Hq). rewrite <- Hperm in Hin.
    assert (any_outranks r qs = true) by (apply any_outranks_true; eauto). congruence.
Qed.

(** X5.  The answer of [ShouldPreempt] does not depend on the order of the
    queues: it is the same for any rearrangement of the slice, hence the
    same before and after [sortByPriority]. *)
Theorem ShouldPreempt_order_independent qs qs' (stop : bool) (r : Z) :
  (qs ≡ₚ qs' ->
   ShouldPreempt (MkQueueManager qs stop) r = ShouldPreempt (MkQueueManager qs' stop) r)
  /\ (sortByPriority qs qs' ->
      ShouldPreempt (MkQueueManager qs' stop) r = ShouldPreempt (MkQueueManager qs stop) r).
Proof.
  unfold ShouldPreempt. simpl. split.
  - intros Hperm. destruct stop; [done|]. by apply any_outranks_perm.
  - intros [Hperm _]. destruct stop; [done|]. by apply any_outranks_perm.
Qed.

Lemma outranks_mono r r' q : r <= r' -> outranks r q = true -> outranks r' q = true.
Proof. rewrite !outranks_true. intros Hle (Hlt & Hp & Hne). split_and!; [lia|done|done]. Qed.

Lemma offer_elem qs i req qs' q :
  offer qs i req = Some qs' -> q ∈ qs ->
  exists q', q' ∈ qs' /\ meta q' = meta q /\ (pending q <> [] -> pending q' <> []).
Proof.
  intros Hoffer Hin. apply offer_Some in Hoffer as (q0 & Hq0 & _ & ->).
  apply list_elem_of_lookup in Hin as [j Hj]. destruct (decide (j = i)) as [->|Hne].
  - assert (q = q0) as -> by congruence.
    exists (with_requests q0 (MkChan (pending q0 ++ [req]) (cap (Requests q0)))).
    split_and!; [|done|].
    + apply list_elem_of_lookup. exists i. apply list_lookup_insert_eq.
      by eapply lookup_lt_Some.
    + intros _. unfold pending at 1. simpl. by destruct (pending q0).
  - exists q. split_and!; [|done|done].
    apply list_elem_of_lookup. exists j. by rewrite list_lookup_insert_ne.
Qed.

(** X6.  [ShouldPreempt] is monotone: if an attempt of rank [r] is to be
    preempted then so is one of any worse rank, and a request joining any
    queue never turns the answer from true to false.  When nothing is
    waiting anywhere the answer is false for every rank. *)
Theorem ShouldPreempt_monotone qm (r : Z) :
  (forall r', r <= r' -> ShouldPreempt qm r = true -> ShouldPreempt qm r' = true)
  /\ (forall i req qs',
        offer (Queues qm) i req = Some qs' -> ShouldPreempt qm r = true ->
        ShouldPreempt (MkQueueManager qs' (stopping qm)) r = true)
  /\ (Forall (fun q => pending q = []) (Queues qm) -> ShouldPreempt qm r = false).
Proof.
  unfold ShouldPreempt. simpl. destruct (stopping qm); [by split_and!|]. split_and!.
  - intros r' Hle. rewrite !any_outranks_true. intros (q & Hin & Hq).
    exists q. split; [done|]. by eapply outranks_mono.
  - intros i req qs' Hoffer. rewrite !any_outranks_true. intros (q & Hin & Hq).
    destruct (offer_elem _ _ _ _ _ Hoffer Hin) as (q' & Hin' & Hmeta & Hne).
    exists q'. split; [done|]. apply outranks_true in Hq as (Hlt & Hp & Hq).
    apply outranks_true. unfold meta in Hmeta. split_and!; [congruence|congruence|auto].
  - intros Hempty. destruct (any_outranks r (Queues qm)) eqn:E; [|done].
    apply any_outranks_true in E as (q & Hin & Hq).
    apply outranks_true in Hq as (_ & _ & Hne).
    rewrite Forall_forall in Hempty. by specialize (Hempty _ Hin).
Qed.

(** Looking a queue up by a key (port or rank). *)
Lemma find_by_key (key : PriorityQueue -> Z) qs (k : Z) :
  (list_find (fun q => key q = k) qs = None <-> forall q, q ∈ qs -> key q <> k)
  /\ (forall i q, list_find (fun q => key q = k) qs = Some (i, q) ->
        qs !! i = Some q /\ key q = k
        /\ forall j q', (j < i)%nat -> qs !! j = Some q' -> key q' <> k)
  /\ (NoDup (key <$> qs) ->
      forall i q, qs !! i = Some q -> key q = k ->
        list_find (fun q => key q = k) qs = Some (i, q)).
Proof.
  split_and!.
  - rewrite list_find_None, Forall_forall. done.
  - intros i q H. apply list_find_Some in H as (Hq & Hk & Hbefore). eauto.
  - intros Hnodup i q Hq Hk. apply list_find_Some. split_and!; [done|done|].
    intros j q' Hj Hlt Hk'.
    assert (j = i); [|lia].
    eapply NoDup_lookup; [exact Hnodup| |].
    + by rewrite list_lookup_fmap, Hj.
    + rewrite list_lookup_fmap, Hq. simpl. congruence.
Qed.

Lemma key_determines (key : PriorityQueue -> Z) qs q1 q2 :
  NoDup (key <$> qs) -> q1 ∈ qs -> q2 ∈ qs -> key q1 = key q2 -> q1 = q2.
Proof.
  intros Hnodup H1 H2 Hk.
  apply list_elem_of_lookup in H1 as [i Hi]. apply list_elem_of_lookup in H2 as [j Hj].
  assert (i = j); [|congruence].
  eapply NoDup_lookup; [exact Hnodup| |].
  - by rewrite list_lookup_fmap, Hi.
  - rewrite list_lookup_fmap, Hj. simpl. congruence.
Qed.

(** X7.  [FindQueueByPort] returns nothing exactly when no queue is bound to
    the port, and otherwise the first queue bound to it.  When the ports of
    the queues are distinct it returns the one queue with that port, and
    the queue found is the same whether or not [sortByPriority] has
    rearranged the slice.  The same holds of [FindQueue] and ranks. *)
Theorem FindQueue_finds qm (k : Z) :
  (FindQueueByPort qm k = None <-> forall q, q ∈ Queues qm -> Port q <> k)
  /\ (forall i q, FindQueueByPort qm k = Some (i, q) ->
        Queues qm !! i = Some q /\ Port q = k
        /\ forall j q', (j < i)%nat -> Queues qm !! j = Some q' -> Port q' <> k)
  /\ (NoDup (Port <$> Queues qm) ->
      (forall i q, Queues qm !! i = Some q -> Port q = k -> FindQueueByPort qm k = Some (i, q))
      /\ forall qs', sortByPriority (Queues qm) qs' ->
           snd <$> FindQueueByPort (MkQueueManager qs' (stopping qm)) k
           = snd <$> FindQueueByPort qm k)
  /\ (FindQueue qm k = None <-> forall q, q ∈ Queues qm -> Priority q <> k)
  /\ (NoDup (Priority <$> Queues qm) ->
      forall i q, Queues qm !! i = Some q -> Priority q = k -> FindQueue qm k = Some (i, q)).
Proof.
  unfold FindQueueByPort, FindQueue.
  destruct (find_by_key Port (Queues qm) k) as (Hnone & Hsome & Huniq).
  destruct (find_by_key Priority (Queues qm) k) as (Hnone' & _ & Huniq').
  split_and!; try done. intros Hnodup. split; [by apply Huniq|].
  intros qs' [Hperm _]. simpl.
  destruct (find_by_key Port qs' k) as (Hnone2 & Hsome2 & _).
  destruct (list_find (fun q => Port q = k) (Queues qm)) as [[i q]|] eqn:E1;
    destruct (list_find (fun q => Port q = k) qs') as [[i' q']|] eqn:E2; simpl; try done.
  - destruct (Hsome _ _ eq_refl) as (Hq & Hk & _).
    destruct (Hsome2 _ _ eq_refl) as (Hq' & Hk' & _).
    f_equal. apply (key_determines Port (Queues qm)); [done| | |congruence].
    + rewrite <- Hperm. apply list_elem_of_lookup. eauto.
    + apply list_elem_of_lookup. eauto.
  - destruct (Hsome _ _ eq_refl) as (Hq & Hk & _).
    exfalso. apply (proj1 Hnone2 eq_refl q); [|done].
    rewrite Hperm. apply list_elem_of_lookup. eauto.
  - destruct (Hsome2 _ _ eq_refl) as (Hq' & Hk' & _).
    exfalso. apply (proj1 Hnone eq_refl q'); [|done].
    rewrite <- Hperm. apply list_elem_of_lookup. eauto.
Qed.

(** X8.  When the ranks of the queues are distinct, [sortByPriority] has
    exactly one outcome: whatever [sort.Slice] does with equal elements,
    the scan order of the scheduler is determined, and in it ranks
    strictly increase. *)
Theorem sortByPriority_unique qs a b :
  NoDup (Priority <$> qs) ->
  sortByPriority qs a -> sortByPriority qs b ->
  a = b /\ a = sorted_queues qs
  /\ forall i j q q', (i < j)%nat -> a !! i = Some q -> a !! j = Some q' ->
       Priority q < Priority q'.
Proof.
  intros Hnodup [Hpa Hsa] [Hpb Hsb].
  assert (Huniq : forall c, sortByPriority qs c -> a = c).
  { intros c [Hpc Hsc]. apply (StronglySorted_unique_strong rank_le); [|done|done|].
    - intros x1 x2 H1 H2 H12 H21. apply (key_determines Priority qs); [done| | |].
      + by rewrite <- Hpa.
      + by rewrite <- Hpc.
      + unfold rank_le in *. lia.
    - by rewrite Hpa, Hpc. }
  split_and!; [by apply Huniq|apply Huniq, sortByPriority_total|].
  intros i j q q' Hij Hq Hq'.
  pose proof (sorted_lookup _ i j q q' Hsa ltac:(lia) Hq Hq') as Hle. unfold rank_le in Hle.
  assert (Priority q <> Priority q'); [|lia]. intros Heq.
  assert (Hna : NoDup (Priority <$> a)) by (by rewrite Hpa).
  assert (i = j); [|lia].
  eapply NoDup_lookup; [exact Hna| |].
  - by rewrite list_lookup_fmap, Hq.
  - rewrite list_lookup_fmap, Hq'. simpl. congruence.
Qed.

End LookupFacts.

(* ===================================================================== *)
(** * The bound on the queues *)
(* ===================================================================== *)

Section CapacityFacts.

Variable json_parse : string -> option json.

Implicit Types (q : PriorityQueue) (qs : list PriorityQueue) (req : workRequest).

Lemma offer_within qs i req qs' :
  within_capacity qs -> offer qs i req = Some qs' -> within_capacity qs'.
Proof.
  unfold within_capacity. intros Hw H. apply offer_Some in H as (q & Hq & Hroom & ->).
  apply Forall_insert; [done|]. unfold pending at 1. simpl. rewrite length_app. simpl. lia.
Qed.

Lemma scan_within qs req i qs' :
  within_capacity qs -> scan qs = Some (req, i, qs') -> within_capacity qs'.
Proof.
  unfold within_capacity. intros Hw H. apply scan_Some in H as (q & rest & Hq & Hp & _ & ->).
  apply Forall_insert; [done|]. unfold pending at 1. simpl.
  rewrite Forall_forall in Hw. specialize (Hw q).
  rewrite Hp in Hw. simpl in Hw. etrans; [|apply Hw]; [lia|].
  apply list_elem_of_lookup. eauto.
Qed.

Lemma scheduler_loop_within events qs :
  within_capacity qs -> within_capacity (scheduler_loop qs events).2.
Proof.
  revert qs. induction events as [|[|i req] events IH]; intros qs Hw; simpl; [done| |].
  - destruct (scan qs) as [[[r k] qs']|] eqn:E; [|by apply IH].
    specialize (IH qs' (scan_within _ _ _ _ Hw E)).
    by destruct (scheduler_loop qs' events).
  - destruct (offer qs i req) as [qs'|] eqn:E.
    + specialize (IH qs' (offer_within _ _ _ _ Hw E)). by destruct (scheduler_loop qs' events).
    + specialize (IH qs Hw). by destruct (scheduler_loop qs events).
Qed.

Lemma deliver_within sends qs : within_capacity qs -> within_capacity (deliver qs sends).
Proof.
  unfold deliver. revert qs. induction sends as [|[i req] sends IH]; intros qs Hw; simpl; [done|].
  apply IH. destruct (offer qs i req) as [qs'|] eqn:E; simpl; [|done]. by eapply offer_within.
Qed.

Lemma scan_amid_within n k during qs :
  within_capacity qs -> within_capacity (scan_amid n k during qs).2.
Proof.
  revert k during qs. induction n as [|n IH]; intros k during qs Hw; simpl; [done|].
  destruct (qs !! k) as [q|] eqn:Hq; [|done].
  destruct (try_recv (Requests q)) as [[r c]|] eqn:E.
  - simpl. apply try_recv_Some in E as (rest & Hp & ->).
    apply Forall_insert; [done|]. unfold pending at 1. simpl.
    unfold within_capacity in Hw. rewrite Forall_forall in Hw. specialize (Hw q).
    rewrite Hp in Hw. simpl in Hw. etrans; [|apply Hw]; [lia|].
    apply list_elem_of_lookup. eauto.
  - apply IH. by apply deliver_within.
Qed.

Lemma tick_within qm i ctx req p qm' :
  within_capacity (Queues qm) -> processRequest_tick qm i ctx req = Some (p, qm') ->
  within_capacity (Queues qm').
Proof.
  unfold processRequest_tick. intros Hw. destruct (Queues qm !! i) as [queue|] eqn:Hq; [|done].
  destruct (ShouldPreempt qm (Priority queue)); [|done]. intros [= <- <-]. simpl.
  assert (Hqueue : (length (pending queue) <= cap (Requests queue))%nat).
  { unfold within_capacity in Hw. rewrite Forall_forall in Hw. apply Hw.
    apply list_elem_of_lookup. eauto. }
  apply Forall_insert; [done|]. unfold processRequest_preempt.
  case_decide; [|done]. unfold try_send, chan_len. case_decide; [|done].
  simpl. unfold pending. simpl. rewrite length_app. simpl. lia.
Qed.

Lemma ServeHTTP_within qm w r now done :
  within_capacity (Queues qm) ->
  within_capacity (Queues (h_qm (ServeHTTP json_parse qm w r now done))).
Proof.
  intros Hw. unfold ServeHTTP.
  destruct (String.eqb (Method r) "OPTIONS"); [done|].
  destruct (negb (String.eqb (Method r) "POST") && negb (String.eqb (Method r) "GET")); [done|].
  destruct (Atoi (port_string (Host r))) as [port|]; [|done].
  destruct (FindQueueByPort qm port) as [[i q]|]; [|done].
  destruct (Body r) as [[bytes|msg]|]; [|done|];
    (destruct (offer _ _ _) as [qs|] eqn:E; [simpl; by eapply offer_within|done]).
Qed.

Lemma exec_within a act a' :
  within_capacity (Queues (at_qm a)) -> exec a act = Some a' ->
  within_capacity (Queues (at_qm a')).
Proof.
  intros Hw. destruct act as [fwd t| | | | |i r]; simpl.
  - destruct (at_processor a); try done. by intros [= <-].
  - destruct (at_processor a) as [|[|instr todo]|]; try done;
      destruct (Queues (at_qm a) !! at_queue a); try done; by intros [= <-].
  - destruct (at_monitor a); try done. case_decide; [|done]. by intros [= <-].
  - destruct (at_monitor a); try done.
    destruct (processRequest_tick _ _ _ _) as [[p qm]|] eqn:E; [|by intros [= <-]].
    apply (tick_within _ _ _ _ _ _ Hw) in E.
    destruct (pre_effects p) as [|e todo]; by intros [= <-].
  - destruct (at_monitor a) as [|[|e todo]|]; try done; by intros [= <-].
  - destruct (offer _ _ _) as [qs|] eqn:E; [|done]. intros [= <-]. simpl.
    by eapply offer_within.
Qed.

(** X9.  No queue ever holds more requests than its capacity.  The queues
    [NewQueueManager] makes are empty; and the bound, once it holds, still
    holds after [sortByPriority], after any run of the scheduler loop (with
    sends between its passes or between the probes of one pass), after the
    ingress handler has served a request, after a tick of a preemption
    monitor and after any interleaving of the goroutines of an attempt.
    So a manager made by [NewQueueManager] never has more than 100 requests
    waiting on any queue. *)
Theorem queues_stay_within_capacity :
  (forall endpoints, within_capacity (Queues (NewQueueManager endpoints)))
  /\ (forall qs qs', sortByPriority qs qs' -> within_capacity qs -> within_capacity qs')
  /\ (forall qs events, within_capacity qs -> within_capacity (scheduler_loop qs events).2)
  /\ (forall n k during qs, within_capacity qs -> within_capacity (scan_amid n k during qs).2)
  /\ (forall qm w r now done,
        within_capacity (Queues qm) ->
        within_capacity (Queues (h_qm (ServeHTTP json_parse qm w r now done))))
  /\ (forall qm i ctx req p qm',
        within_capacity (Queues qm) -> processRequest_tick qm i ctx req = Some (p, qm') ->
        within_capacity (Queues qm'))
  /\ (forall schedule a a',
        within_capacity (Queues (at_qm a)) -> run a schedule = Some a' ->
        within_capacity (Queues (at_qm a')))
  /\ (forall endpoints qm q,
        made_for endpoints qm -> within_capacity (Queues qm) -> q ∈ Queues qm ->
        (length (pending q) <= 100)%nat).
Proof.
  split_and!.
  - intros endpoints. unfold within_capacity.
    eapply Forall_impl; [apply NewQueueManager_fresh|]. intros q [_ ->]. simpl. lia.
  - intros qs qs' [Hperm _] Hw. unfold within_capacity in *. by rewrite Hperm.
  - intros qs events. apply scheduler_loop_within.
  - apply scan_amid_within.
  - apply ServeHTTP_within.
  - apply tick_within.
  - induction schedule as [|act schedule IH]; intros a a' Hw; simpl.
    + by intros [= <-].
    + destruct (exec a act) as [a1|] eqn:E; [|done]. apply IH. by eapply exec_within.
  - intros endpoints qm q Hmade Hw Hin.
    rewrite <- (made_for_capacity endpoints qm q Hmade Hin).
    unfold within_capacity in Hw. rewrite Forall_forall in Hw. by apply Hw.
Qed.

End CapacityFacts.

(* ===================================================================== *)
(** * One attempt under every interleaving *)
(* ===================================================================== *)

Section AttemptFacts.

Implicit Types (a : Attempt) (act : Action) (schedule : list Action).

Lemma visible_app (l k : list Effect) : visible (l ++ k) = visible l ++ visible k.
Proof. unfold visible. apply filter_app. Qed.

Lemma perform_visible req q i : visible [perform req q i] = instr_visible i.
Proof. by destruct i. Qed.

Lemma respond_visible collector status header body t req :
  flat_map instr_visible
    (processRequest_respond false collector (ForwardResponse status header body) t req)
  = response_writes (ResponseWriter req) status header body ++ [CloseDone (Done req)].
Proof.
  unfold processRequest_respond, response_writes.
  rewrite !flat_map_app, <- app_assoc. f_equal.
  - induction header as [|[key values] header IH]; [done|].
    simpl. rewrite flat_map_app, IH. f_equal. clear IH.
    induction values as [|v values IH]; [done|]. simpl. by rewrite IH.
  - by destruct collector.
Qed.

(** The request's writer and [done] channel are the same through every
    step of an attempt; so is its scope. *)
Lemma exec_handles a act a' :
  exec a act = Some a' ->
  ResponseWriter (at_req a') = ResponseWriter (at_req a)
  /\ Done (at_req a') = Done (at_req a)
  /\ at_ctx a' = at_ctx a
  /\ at_collector a' = at_collector a.
Proof.
  destruct act as [fwd t| | | | |i r]; simpl.
  - destruct (at_processor a); try done. by intros [= <-].
  - destruct (at_processor a) as [|[|instr todo]|]; try done;
      destruct (Queues (at_qm a) !! at_queue a); try done; by intros [= <-].
  - destruct (at_monitor a); try done. case_decide; [|done]. by intros [= <-].
  - destruct (at_monitor a); try done.
    destruct (processRequest_tick _ _ _ _) as [[p qm]|] eqn:E; [|by intros [= <-]].
    assert (Hp : ResponseWriter (pre_req p) = ResponseWriter (at_req a)
                 /\ Done (pre_req p) = Done (at_req a)).
    { unfold processRequest_tick in E. destruct (Queues (at_qm a) !! at_queue a); [|done].
      destruct (ShouldPreempt _ _); [|done]. injection E as <- _.
      unfold processRequest_preempt. case_decide; [|done]. by destruct (try_send _ _). }
    destruct Hp as [Hw Hd]. destruct (pre_effects p) as [|e todo]; by intros [= <-].
  - destruct (at_monitor a) as [|[|e todo]|]; try done; by intros [= <-].
  - destruct (offer _ _ _); [|done]. by intros [= <-].
Qed.

Lemma run_handles schedule a a' :
  run a schedule = Some a' ->
  ResponseWriter (at_req a') = ResponseWriter (at_req a)
  /\ Done (at_req a') = Done (at_req a)
  /\ at_ctx a' = at_ctx a
  /\ at_collector a' = at_collector a.
Proof.
  revert a. induction schedule as [|act schedule IH]; intros a; simpl.
  - by intros [= <-].
  - destruct (exec a act) as [a1|] eqn:E; [|done]. intros H.
    destruct (exec_handles _ _ _ E) as (? & ? & ? & ?).
    destruct (IH _ H) as (? & ? & ? & ?). split_and!; congruence.
Qed.

Lemma effects_of_monitor_snoc trace e :
  effects_of Processor (trace ++ [(Monitor, e)]) = effects_of Processor trace.
Proof. rewrite effects_of_app. simpl. by rewrite app_nil_r. Qed.

Lemma exec_processor_total a act a' total :
  processor_total a = Some total -> exec a act = Some a' ->
  processor_total a' = Some total
  /\ visible (effects_of Processor (at_trace a))
       `prefix_of` visible (effects_of Processor (at_trace a')).
Proof.
  unfold processor_total. intros Ht.
  destruct act as [fwd t| | | | |i r]; simpl.
  - destruct (at_processor a); done.
  - destruct (at_processor a) as [|[|instr todo]|] eqn:Hp; try done.
    + intros [= <-]. simpl. rewrite app_nil_r in Ht. done.
    + destruct (Queues (at_qm a) !! at_queue a) as [queue|]; [|done]. intros [= <-].
      cbn [set_processor at_processor at_trace].
      rewrite happen_Processor, visible_app, perform_visible.
      split; [|by apply prefix_app_r]. simpl in Ht. by rewrite <- app_assoc.
  - destruct (at_monitor a); try done. case_decide; [|done]. intros [= <-]. simpl.
    by destruct (at_processor a).
  - destruct (at_monitor a); try done.
    destruct (processRequest_tick _ _ _ _) as [[p qm]|]; [|by intros [= <-]].
    destruct (pre_effects p) as [|e todo]; intros [= <-]; simpl;
      rewrite ?effects_of_monitor_snoc; by destruct (at_processor a).
  - destruct (at_monitor a) as [|[|e todo]|]; try done; intros [= <-]; simpl;
      rewrite ?effects_of_monitor_snoc; by destruct (at_processor a).
  - destruct (offer _ _ _); [|done]. intros [= <-]. simpl. by destruct (at_processor a).
Qed.

Lemma run_processor_total schedule a a' total :
  processor_total a = Some total -> run a schedule = Some a' ->
  processor_total a' = Some total
  /\ visible (effects_of Processor (at_trace a))
       `prefix_of` visible (effects_of Processor (at_trace a')).
Proof.
  revert a. induction schedule as [|act schedule IH]; intros a Ht; simpl.
  - by intros [= <-].
  - destruct (exec a act) as [a1|] eqn:E; [|done]. intros H.
    destruct (exec_processor_total _ _ _ _ Ht E) as [Ht1 Hpre].
    destruct (IH _ Ht1 H) as [Ht' Hpre']. split; [done|]. by etrans.
Qed.

Lemma run_to_return todo a queue :
  at_processor a = Responding todo -> Queues (at_qm a) !! at_queue a = Some queue ->
  exists a', run a (replicate (S (length todo)) ProcessorStep) = Some a'
             /\ at_processor a' = ProcessorReturned.
Proof.
  revert a. induction todo as [|i todo IH]; intros a Hp Hq.
  - exists (set_processor ProcessorReturned a). simpl. rewrite Hp.
    by destruct (Queues (at_qm a) !! at_queue a).
  - change (replicate (S (length (i :: todo))) ProcessorStep)
      with (ProcessorStep :: replicate (S (length todo)) ProcessorStep).
    cbn [run exec]. rewrite Hp, Hq. by apply IH.
Qed.

(** X10.  An upstream response is relayed once and unaltered.  When
    [ForwardRequest] returns a response and the processor finds its scope
    not cancelled (the metrics collector being initialised), then in every
    interleaving with the monitor and with arrivals what the processor has
    written to the response writer and closed since is a prefix of: every
    header value of the response in order, its status, its body, one
    [close(done)]; once the processor has returned it is exactly that; and
    left to run, the processor does return. *)
Theorem upstream_response_relayed_once a status header body t schedule a' :
  at_processor a = Forwarding -> at_cancelled a = false -> at_collector a = true ->
  run a (ForwardReturns (ForwardResponse status header body) t :: schedule) = Some a' ->
  let relayed :=
    response_writes (ResponseWriter (at_req a)) status header body
    ++ [CloseDone (Done (at_req a))] in
  (exists written,
     visible (effects_of Processor (at_trace a'))
     = visible (effects_of Processor (at_trace a)) ++ written
     /\ written `prefix_of` relayed
     /\ (at_processor a' = ProcessorReturned -> written = relayed))
  /\ (forall queue, Queues (at_qm a) !! at_queue a = Some queue ->
      exists n a'',
        run a (ForwardReturns (ForwardResponse status header body) t
               :: replicate n ProcessorStep) = Some a''
        /\ at_processor a'' = ProcessorReturned).
Proof.
  intros Hfw Hc Hcol Hrun relayed. split.
  - simpl in Hrun. rewrite Hfw, Hc in Hrun.
    match type of Hrun with run ?start _ = _ => set (a1 := start) in * end.
    assert (Ht : processor_total a1
                 = Some (visible (effects_of Processor (at_trace a)) ++ relayed)).
    { unfold processor_total. cbn [a1 set_processor at_processor at_trace].
      by rewrite respond_visible. }
    destruct (run_processor_total _ _ _ _ Ht Hrun) as [Ht' [written Hw]].
    cbn [a1 set_processor at_trace] in Hw. exists written. split; [done|].
    unfold processor_total in Ht'. rewrite Hw in Ht'.
    destruct (at_processor a') as [|todo|]; [done| |].
    + injection Ht' as Ht'. rewrite <- app_assoc in Ht'. apply app_inv_head in Ht'.
      split; [by exists (flat_map instr_visible todo)|done].
    + injection Ht' as Ht'. apply app_inv_head in Ht'. split; [by rewrite Ht'|done].
  - intros queue Hq. cbn [run exec]. rewrite Hfw.
    eexists. by eapply run_to_return.
Qed.

Lemma effects_of_processor_snoc trace e :
  effects_of Monitor (trace ++ [(Processor, e)]) = effects_of Monitor trace.
Proof. rewrite effects_of_app. simpl. by rewrite app_nil_r. Qed.

Lemma effects_of_monitor_own trace e :
  effects_of Monitor (trace ++ [(Monitor, e)]) = effects_of Monitor trace ++ [e].
Proof. by rewrite effects_of_app. Qed.

(** The script of a monitor is fixed by its one preemption. *)
Lemma exec_monitor_script a act a' :
  exec a act = Some a' ->
  (at_monitor a = Watching -> effects_of Monitor (at_trace a) = []) ->
  (at_monitor a' = Watching -> effects_of Monitor (at_trace a') = [])
  /\ (monitor_script a' = monitor_script a
      \/ (at_monitor a = Watching /\
          (monitor_script a' = [Cancel (at_ctx a)]
           \/ monitor_script a'
              = overload_reply (at_ctx a) (ResponseWriter (at_req a)) (Done (at_req a))))).
Proof.
  unfold monitor_script. destruct act as [fwd t| | | | |i r]; simpl.
  - destruct (at_processor a); try done. intros [= <-]. simpl. auto.
  - destruct (at_processor a) as [|[|instr todo]|]; try done;
      destruct (Queues (at_qm a) !! at_queue a); try done; intros [= <-]; simpl;
      rewrite ?effects_of_processor_snoc; auto.
  - destruct (at_monitor a); try done. case_decide; [|done]. intros [= <-] Hw. simpl.
    split; [done|left]. by rewrite Hw.
  - destruct (at_monitor a) eqn:Hm; try done.
    destruct (processRequest_tick _ _ _ _) as [[p qm]|] eqn:E.
    2:{ intros [= <-]. rewrite Hm. auto. }
    intros Hex Hw. rewrite (Hw eq_refl) in *.
    assert (Hp : pre_effects p = [Cancel (at_ctx a)]
                 \/ pre_effects p
                    = overload_reply (at_ctx a) (ResponseWriter (at_req a)) (Done (at_req a))).
    { unfold processRequest_tick in E. destruct (Queues (at_qm a) !! at_queue a); [|done].
      destruct (ShouldPreempt _ _); [|done]. injection E as <- _.
      unfold processRequest_preempt. case_decide; [|by left].
      destruct (try_send _ _); [by left|by right]. }
    destruct (pre_effects p) as [|e todo] eqn:Hpe.
    { destruct Hp as [Hp|Hp]; discriminate Hp. }
    injection Hex as <-. simpl. rewrite effects_of_monitor_own.
    split; [done|]. right. split; [done|]. rewrite Hw; [|done]. exact Hp.
  - destruct (at_monitor a) as [|[|e todo]|]; try done; intros [= <-] _; simpl;
      rewrite ?effects_of_monitor_own, <- ?app_assoc; (split; [done|by left]).
  - destruct (offer _ _ _); [|done]. intros [= <-]. simpl. auto.
Qed.

Lemma run_monitor_script schedule a a' ctx w d :
  run a schedule = Some a' ->
  at_ctx a = ctx -> ResponseWriter (at_req a) = w -> Done (at_req a) = d ->
  (at_monitor a = Watching -> effects_of Monitor (at_trace a) = []) ->
  (monitor_script a = []
   \/ monitor_script a = [Cancel ctx] \/ monitor_script a = overload_reply ctx w d) ->
  (at_monitor a' = Watching -> effects_of Monitor (at_trace a') = [])
  /\ (monitor_script a' = []
      \/ monitor_script a' = [Cancel ctx] \/ monitor_script a' = overload_reply ctx w d).
Proof.
  revert a. induction schedule as [|act schedule IH]; intros a; simpl.
  - by intros [= <-].
  - destruct (exec a act) as [a1|] eqn:E; [|done]. intros Hrun Hc Hw Hd Hfresh Hs.
    destruct (exec_handles _ _ _ E) as (Hw1 & Hd1 & Hc1 & _).
    destruct (exec_monitor_script _ _ _ E Hfresh) as [Hfresh1 Hs1].
    apply (IH a1 Hrun); [congruence..|done|].
    destruct Hs1 as [Hsame|[Hwatch Hnew]].
    + by rewrite Hsame.
    + right. subst ctx w d. exact Hnew.
Qed.

(** X11.  A monitor acts at most once.  Over a whole attempt, in every
    interleaving, the effects of the preemption monitor are a prefix of:
    cancel the attempt's scope, status 503, the overload body, one
    [close(done)] of the request; while it is still watching it has done
    nothing; and when it has returned it has done nothing at all, or only
    cancelled, or all four.  In particular it cancels at most once, answers
    at most once and never writes without having cancelled first. *)
Theorem monitor_acts_at_most_once a schedule a' :
  at_monitor a = Watching -> effects_of Monitor (at_trace a) = [] ->
  run a schedule = Some a' ->
  let done_by_monitor := effects_of Monitor (at_trace a') in
  let reply := overload_reply (at_ctx a) (ResponseWriter (at_req a)) (Done (at_req a)) in
  done_by_monitor `prefix_of` reply
  /\ (at_monitor a' = Watching -> done_by_monitor = [])
  /\ (at_monitor a' = MonitorReturned ->
      done_by_monitor = [] \/ done_by_monitor = [Cancel (at_ctx a)] \/ done_by_monitor = reply).
Proof.
  intros Hwatch Hnone Hrun done_by_monitor reply.
  destruct (run_monitor_script schedule a a' _ _ _ Hrun eq_refl eq_refl eq_refl)
    as [Hfresh Hs]; [done| |].
  { left. unfold monitor_script. by rewrite Hnone, Hwatch. }
  fold reply in Hs. split_and!; [|done|].
  - assert (Hpre : done_by_monitor `prefix_of` monitor_script a') by by eexists.
    destruct Hs as [Hs|[Hs|Hs]]; rewrite Hs in Hpre; [| |done].
    + etrans; [exact Hpre|]. apply prefix_nil.
    + etrans; [exact Hpre|]. by eexists.
  - intros Hret. unfold monitor_script in Hs. rewrite Hret, app_nil_r in Hs. exact Hs.
Qed.

Lemma exec_abandoned a act a' :
  abandoned a -> exec a act = Some a' ->
  abandoned a' /\ at_trace a' = at_trace a /\ at_closes a' = at_closes a.
Proof.
  unfold abandoned, finished. intros [Hp Hm]. destruct act as [fwd t| | | | |i r]; simpl.
  - destruct Hp as [[-> ->]|[-> | ->]]; [|done..]. intros [= <-]. simpl. auto.
  - destruct Hp as [[-> _]|[-> | ->]]; [done| |by destruct (Queues (at_qm a) !! at_queue a)].
    destruct (Queues (at_qm a) !! at_queue a); intros [= <-]; simpl; auto.
  - destruct Hm as [-> | ->]; done.
  - destruct Hm as [-> | ->]; done.
  - destruct Hm as [-> | ->]; [|done]. intros [= <-]. simpl. auto.
  - destruct (offer _ _ _); [|done]. intros [= <-]. simpl. auto.
Qed.

(** X12.  A request that is preempted without being requeued is never
    answered.  When the monitor's tick finds [ShouldPreempt] true while the
    processor is still inside [ForwardRequest], and the queue's rank is at
    most 1 (so that nothing is requeued), the monitor only cancels the
    scope and the manager is unchanged; and from then on, in every
    interleaving, however [ForwardRequest] returns, neither goroutine
    performs any further effect: nothing is written to the response writer
    and [done] is not closed, so that the ingress handler waiting on [done]
    is never released by this attempt and no retry exists to do it. *)
Theorem preempted_without_requeue_is_abandoned a queue :
  at_processor a = Forwarding -> at_monitor a = Watching ->
  Queues (at_qm a) !! at_queue a = Some queue -> Priority queue <= 1 ->
  ShouldPreempt (at_qm a) (Priority queue) = true ->
  exists a1,
    exec a MonitorTick = Some a1
    /\ at_trace a1 = at_trace a ++ [(Monitor, Cancel (at_ctx a))]
    /\ Queues (at_qm a1) = Queues (at_qm a)
    /\ at_closes a1 = at_closes a
    /\ forall schedule a',
         run a1 schedule = Some a' ->
         at_trace a' = at_trace a1 /\ at_closes a' = at_closes a
         /\ (at_processor a' = Forwarding \/ finished a').
Proof.
  intros Hfw Hwatch Hq Hrank Hpre. eexists. split.
  { simpl. rewrite Hwatch. unfold processRequest_tick. rewrite Hq, Hpre.
    unfold processRequest_preempt. rewrite decide_False by lia. simpl. reflexivity. }
  split_and!; [done|simpl; by rewrite list_insert_id|done|].
  match goal with |- forall s a', run ?start s = _ -> _ => set (a1 := start) end.
  assert (Hab : abandoned a1).
  { split; [left|by left]. split; [done|]. simpl. by rewrite decide_True. }
  assert (Hall : forall schedule b b', abandoned b -> run b schedule = Some b' ->
                   abandoned b' /\ at_trace b' = at_trace b /\ at_closes b' = at_closes b).
  { induction schedule as [|act schedule IH]; intros b b' Hb; simpl.
    - by intros [= <-].
    - destruct (exec b act) as [b1|] eqn:E; [|done]. intros Hrun.
      destruct (exec_abandoned _ _ _ Hb E) as (Hb1 & <- & <-). by apply IH. }
  intros schedule a' Hrun. destruct (Hall _ _ _ Hab Hrun) as ([Hp _] & Ht & Hc).
  split_and!; [done|by rewrite Hc|]. destruct Hp as [[? _]|?]; auto.
Qed.

End AttemptFacts.

(* ===================================================================== *)
(** * The metrics of an attempt *)
(* ===================================================================== *)

Section MetricsFacts.

Implicit Types (a : Attempt) (act : Action) (schedule : list Action).

Lemma collected_app (l k : list Effect) : collected (l ++ k) = collected l ++ collected k.
Proof. unfold collected. apply omap_app. Qed.

Lemma respond_collects status header body t req :
  let todo := processRequest_respond false true (ForwardResponse status header body) t req in
  to_collect todo = [(status, t)] /\ Forall emits_no_record todo.
Proof.
  cbv zeta. unfold processRequest_respond, to_collect. rewrite omap_app, Forall_app.
  assert (Hh : forall w,
    let hs := flat_map (fun kv : string * list string =>
                          map (fun vv => Emit (AddHeader w kv.1 vv)) kv.2) header in
    omap (fun i => match i with
                   | EmitCollect s p => Some (s, p)
                   | Emit _ => None
                   end) hs = [] /\ Forall emits_no_record hs).
  { intros w. cbv zeta. induction header as [|[key values] header [IH1 IH2]]; [done|].
    cbn [flat_map]. rewrite omap_app, Forall_app, IH1, app_nil_r. cbn [fst snd].
    split; [|split; [|done]]; clear; (induction values as [|v values IH]; [done|]).
    - exact IH.
    - by constructor. }
  destruct (Hh (ResponseWriter req)) as [-> Hplain]. split; [done|].
  split; [done|]. by repeat constructor.
Qed.

(** The rank of the queue an attempt runs from never changes. *)
Lemma exec_rank a act a' :
  exec a act = Some a' ->
  Priority <$> (Queues (at_qm a') !! at_queue a') = Priority <$> (Queues (at_qm a) !! at_queue a).
Proof.
  assert (Hmeta : forall (qs qs' : list PriorityQueue) (i : nat),
            meta <$> qs' = meta <$> qs -> Priority <$> (qs' !! i) = Priority <$> (qs !! i)).
  { intros qs qs' i Hm.
    assert (Hi : (meta <$> qs') !! i = (meta <$> qs) !! i) by by rewrite Hm.
    rewrite !list_lookup_fmap in Hi.
    destruct (qs' !! i) as [q'|], (qs !! i) as [q|]; simpl in *; try done.
    unfold meta in Hi. congruence. }
  destruct act as [fwd t| | | | |i r]; simpl.
  - destruct (at_processor a); try done. by intros [= <-].
  - destruct (at_processor a) as [|[|instr todo]|]; try done;
      destruct (Queues (at_qm a) !! at_queue a) eqn:Hq; try done;
      intros [= <-]; simpl; by rewrite Hq.
  - destruct (at_monitor a); try done. case_decide; [|done]. by intros [= <-].
  - destruct (at_monitor a); try done.
    destruct (processRequest_tick _ _ _ _) as [[p qm]|] eqn:E; [|by intros [= <-]].
    assert (Hm : meta <$> Queues qm = meta <$> Queues (at_qm a)).
    { unfold processRequest_tick in E.
      destruct (Queues (at_qm a) !! at_queue a) as [queue|] eqn:Hq; [|done].
      destruct (ShouldPreempt _ _); [|done]. injection E as <- <-. simpl.
      apply (insert_meta _ _ queue); [done|]. unfold processRequest_preempt.
      case_decide; [|done]. unfold try_send. by case_decide. }
    destruct (pre_effects p) as [|e todo]; intros [= <-]; simpl; by apply Hmeta.
  - destruct (at_monitor a) as [|[|e todo]|]; try done; by intros [= <-].
  - destruct (offer _ _ _) as [qs|] eqn:E; [|done]. intros [= <-]. simpl.
    apply Hmeta. by eapply offer_meta.
Qed.

(** The shared request of an attempt is the original one, or the
    original one marked as preempted once the monitor has left its
    [select]. *)
Lemma exec_marked a act a' req :
  exec a act = Some a' ->
  at_req a = req \/ (at_req a = mark_preempted req /\ at_monitor a <> Watching) ->
  at_req a' = req \/ (at_req a' = mark_preempted req /\ at_monitor a' <> Watching).
Proof.
  destruct act as [fwd t| | | | |i r]; simpl.
  - destruct (at_processor a); try done. by intros [= <-].
  - destruct (at_processor a) as [|[|instr todo]|]; try done;
      destruct (Queues (at_qm a) !! at_queue a); try done; by intros [= <-].
  - destruct (at_monitor a) eqn:Hm; try done. case_decide; [|done].
    intros [= <-]. simpl. intros [Hr|[_ Hw]]; [by left|done].
  - destruct (at_monitor a) eqn:Hm; try done.
    destruct (processRequest_tick _ _ _ _) as [[p qm]|] eqn:E.
    2:{ intros [= <-]. by rewrite Hm. }
    intros Hex [Hr|[_ Hw]]; [|done].
    assert (Hp : pre_req p = req \/ pre_req p = mark_preempted req).
    { unfold processRequest_tick in E. destruct (Queues (at_qm a) !! at_queue a); [|done].
      destruct (ShouldPreempt _ _); [|done]. injection E as <- _. rewrite Hr.
      unfold processRequest_preempt. case_decide; [|by left].
      destruct (try_send _ _); by right. }
    destruct (pre_effects p) as [|e todo]; injection Hex as <-; simpl;
      (destruct Hp as [Hp|Hp]; [by left|by right]).
  - destruct (at_monitor a) as [|[|e todo]|]; try done; intros [= <-]; simpl;
      (intros [Hr|[Hr _]]; [by left|by right]).
  - destruct (offer _ _ _); [|done]. by intros [= <-].
Qed.

Lemma effects_of_processor_own trace e :
  effects_of Processor (trace ++ [(Processor, e)]) = effects_of Processor trace ++ [e].
Proof. by rewrite effects_of_app. Qed.

Lemma exec_collects a act a' req rank status t :
  exec a act = Some a' ->
  at_req a = req \/ (at_req a = mark_preempted req /\ at_monitor a <> Watching) ->
  Priority <$> (Queues (at_qm a) !! at_queue a) = Some rank ->
  at_processor a <> Forwarding ->
  Forall emits_no_record (remaining a) ->
  Forall (fun st => st = (status, t)) (to_collect (remaining a)) ->
  Forall (describes req rank status t) (collected (effects_of Processor (at_trace a))) ->
  at_processor a' <> Forwarding
  /\ Forall emits_no_record (remaining a')
  /\ Forall (fun st => st = (status, t)) (to_collect (remaining a'))
  /\ Forall (describes req rank status t) (collected (effects_of Processor (at_trace a')))
  /\ (length (collected (effects_of Processor (at_trace a')))
      + length (to_collect (remaining a'))
      = length (collected (effects_of Processor (at_trace a)))
        + length (to_collect (remaining a)))%nat.
Proof.
  intros Hex Hreq Hrank Hfw Hplain Hst Hgood. unfold remaining in *.
  destruct act as [fwd t0| | | | |i r]; simpl in Hex.
  - by destruct (at_processor a).
  - destruct (at_processor a) as [|[|instr todo]|] eqn:Hp; try done.
    { injection Hex as <-. simpl. by split_and!. }
    destruct (Queues (at_qm a) !! at_queue a) as [queue|] eqn:Hq; [|done].
    injection Hex as <-. simpl in Hrank. injection Hrank as Hrank. simpl.
    rewrite effects_of_processor_own, collected_app, length_app.
    apply Forall_cons in Hplain as [Hinstr Hplain].
    destruct instr as [e|status' t'].
    + assert (He : collected [e] = []) by by destruct e.
      cbn [perform]. rewrite He, app_nil_r. simpl in Hst |- *. split_and!; try done. lia.
    + simpl in Hst. apply Forall_cons in Hst as [[= -> ->] Hst].
      split_and!; try done; [|simpl; lia].
      apply Forall_app. split; [done|]. apply Forall_singleton. unfold describes. simpl.
      destruct Hreq as [->|[-> _]]; split_and!; auto.
  - destruct (at_monitor a); try done. case_decide; [|done]. injection Hex as <-. simpl.
    destruct (at_processor a); by split_and!.
  - destruct (at_monitor a); try done.
    destruct (processRequest_tick _ _ _ _) as [[p qm]|]; [|by injection Hex as <-].
    destruct (pre_effects p) as [|e todo]; injection Hex as <-; simpl;
      rewrite ?effects_of_monitor_snoc; destruct (at_processor a); by split_and!.
  - destruct (at_monitor a) as [|[|e todo]|]; try done; injection Hex as <-; simpl;
      rewrite ?effects_of_monitor_snoc; destruct (at_processor a); by split_and!.
  - destruct (offer _ _ _); [|done]. injection Hex as <-. simpl.
    destruct (at_processor a); by split_and!.
Qed.

Lemma run_collects schedule a a' req rank status t :
  run a schedule = Some a' ->
  at_req a = req \/ (at_req a = mark_preempted req /\ at_monitor a <> Watching) ->
  Priority <$> (Queues (at_qm a) !! at_queue a) = Some rank ->
  at_processor a <> Forwarding ->
  Forall emits_no_record (remaining a) ->
  Forall (fun st => st = (status, t)) (to_collect (remaining a)) ->
  Forall (describes req rank status t) (collected (effects_of Processor (at_trace a))) ->
  at_processor a' <> Forwarding
  /\ Forall (describes req rank status t) (collected (effects_of Processor (at_trace a')))
  /\ (length (collected (effects_of Processor (at_trace a')))
      + length (to_collect (remaining a'))
      = length (collected (effects_of Processor (at_trace a)))
        + length (to_collect (remaining a)))%nat.
Proof.
  revert a. induction schedule as [|act schedule IH]; intros a; simpl.
  - intros [= <-] _ _ Hfw _ _ Hgood. by split_and!.
  - destruct (exec a act) as [a1|] eqn:E; [|done].
    intros Hrun Hreq Hrank Hfw Hplain Hst Hgood.
    destruct (exec_collects _ _ _ _ _ _ _ E Hreq Hrank Hfw Hplain Hst Hgood)
      as (Hfw1 & Hplain1 & Hst1 & Hgood1 & Hlen1).
    pose proof (exec_marked _ _ _ _ E Hreq) as Hreq1.
    pose proof (exec_rank _ _ _ E) as Hrank1. rewrite Hrank in Hrank1.
    destruct (IH a1 Hrun Hreq1 Hrank1 Hfw1 Hplain1 Hst1 Hgood1) as (Hfw' & Hgood' & Hlen').
    split_and!; [done|done|lia].
Qed.


End MetricsFacts.

(* ===================================================================== *)
(** * What the ingress handler leaves behind *)
(* ===================================================================== *)

Section IngressOutcomes.

Variable json_parse : string -> option json.

Ltac answered_with_error :=
  eexists; split; [reflexivity|]; simpl; split; [done|]; right;
  eexists _, _; split; [reflexivity|]; set_solver.

(** X13.  The handler either answers itself or hands the request over,
    never both.  Whatever the request, the three CORS headers are set
    first.  If the handler returns at once it has written exactly one
    status (200, 405, 400, 404 or 429), with an error body except for 200,
    and the queue manager is as before.  If it waits on [done] it has
    written nothing else, and exactly one queue has changed: the first one
    bound to the port named by the Host header has the new envelope at its
    tail. *)
Theorem ServeHTTP_answers_or_enqueues qm w r now done :
  let h := ServeHTTP json_parse qm w r now done in
  exists rest,
    h_effects h = cors w ++ rest
    /\ match h_served h with
       | Returned =>
           h_qm h = qm
           /\ (rest = [WriteHeader w StatusOK]
               \/ exists status msg,
                    rest = [WriteHeader w status; WriteBody w (error_json msg)]
                    /\ status ∈ [StatusMethodNotAllowed; StatusBadRequest; StatusNotFound;
                                 StatusTooManyRequests])
       | AwaitDone d =>
           d = done /\ rest = []
           /\ exists port i q,
                Atoi (port_string (Host r)) = Some port
                /\ FindQueueByPort qm port = Some (i, q)
                /\ (length (pending q) < cap (Requests q))%nat
                /\ stopping (h_qm h) = stopping qm
                /\ Queues (h_qm h)
                   = <[i := with_requests q
                              (MkChan (pending q ++ [envelope json_parse w r now done])
                                 (cap (Requests q)))]> (Queues qm)
       end.
Proof.
  unfold ServeHTTP. cbv zeta.
  destruct (String.eqb (Method r) "OPTIONS").
  { exists [WriteHeader w StatusOK]. simpl. auto. }
  destruct (negb (String.eqb (Method r) "POST") && negb (String.eqb (Method r) "GET"));
    [answered_with_error|].
  destruct (Atoi (port_string (Host r))) as [port|]; [|answered_with_error].
  destruct (FindQueueByPort qm port) as [[i q]|] eqn:Hfind; [|answered_with_error].
  assert (Hq : Queues qm !! i = Some q).
  { apply FindQueueByPort_Some in Hfind. apply Hfind. }
  destruct (Body r) as [[bytes|msg]|]; [|answered_with_error|].
  all: destruct (offer (Queues qm) i _) as [qs|] eqn:E; [|answered_with_error].
  all: apply offer_Some in E as (q0 & Hq0 & Hroom & ->).
  all: assert (q0 = q) as -> by congruence.
  all: exists []; simpl; split_and!; try done; by exists port, i, q.
Qed.

End IngressOutcomes.

(** X14.  Failing to extract the metadata never fails the request.  What
    the handler writes and whether it returns or waits do not depend on
    the JSON decoder at all; a readable body that does not decode to an
    object is enqueued like any other, its envelope carrying the empty
    model, zero tokens and no tools, and so is a request with no body. *)
Theorem metadata_failure_is_not_fatal (parse parse' : string -> option json) qm w r now done :
  h_effects (ServeHTTP parse qm w r now done) = h_effects (ServeHTTP parse' qm w r now done)
  /\ h_served (ServeHTTP parse qm w r now done) = h_served (ServeHTTP parse' qm w r now done)
  /\ ((Body r = None \/ exists bytes, Body r = Some (ReadOK bytes) /\ Unmarshal parse bytes = None) ->
      envelope parse w r now done
      = MkWorkRequest r w done None None now "" 0 0 [] 0 false).
Proof.
  split_and!.
  1,2: unfold ServeHTTP;
    destruct (String.eqb (Method r) "OPTIONS"); [done|];
    destruct (negb (String.eqb (Method r) "POST") && negb (String.eqb (Method r) "GET"));
      [done|];
    destruct (Atoi (port_string (Host r))) as [port|]; [|done];
    destruct (FindQueueByPort qm port) as [[i q]|]; [|done];
    destruct (Body r) as [[bytes|msg]|]; [|done|];
    unfold offer; (destruct (Queues qm !! i) as [q'|]; [|done]);
    unfold try_send; by case_decide.
  - unfold envelope. intros [->|(bytes & -> & Hbad)]; [done|].
    unfold ExtractRequestMetadata. by rewrite Hbad.
Qed.

(* ===================================================================== *)
(** * From the listening address to the queue *)
(* ===================================================================== *)

Section HostFacts.

Lemma strip_prefix_app prefix s : strip_prefix prefix (prefix +:+ s) = Some s.
Proof.
  induction prefix as [|c prefix IH]; [by destruct s|]. simpl. by rewrite Ascii.eqb_refl.
Qed.

Lemma digit_char_spec d :
  0 <= d < 10 ->
  digit_of (digit_char d) = Some d
  /\ Ascii.eqb (digit_char d) "-" = false /\ Ascii.eqb (digit_char d) "+" = false.
Proof.
  intros Hd.
  assert (Hcases : d = 0 \/ d = 1 \/ d = 2 \/ d = 3 \/ d = 4 \/ d = 5 \/ d = 6 \/ d = 7
                   \/ d = 8 \/ d = 9) by lia.
  repeat (destruct Hcases as [->|Hcases]; [by vm_compute|]). subst d. by vm_compute.
Qed.

Lemma parse_digits_onto fuel n rest :
  0 <= n < 10 ^ Z.of_nat fuel ->
  parse_digits 0 (digits_onto fuel n rest) = parse_digits n rest.
Proof.
  revert n rest. induction fuel as [|fuel IH]; intros n rest Hn.
  - simpl. change (10 ^ Z.of_nat 0) with 1 in Hn. by replace n with 0 by lia.
  - cbn [digits_onto]. destruct (Z.ltb_spec n 10) as [Hlt|Hge].
    + cbn [parse_digits]. destruct (digit_char_spec n) as [-> _]; [lia|]. done.
    + rewrite IH.
      * cbn [parse_digits]. destruct (digit_char_spec (n mod 10)) as [-> _].
        { apply Z.mod_pos_bound. lia. }
        f_equal. pose proof (Z.div_mod n 10). lia.
      * rewrite Nat2Z.inj_succ, Z.pow_succ_r in Hn by lia.
        split; [apply Z.div_pos; lia|]. apply Z.div_lt_upper_bound; lia.
Qed.

Lemma digits_onto_head fuel n rest :
  0 <= n -> exists d r, 0 <= d < 10 /\ digits_onto (S fuel) n rest = String (digit_char d) r.
Proof.
  revert n rest. induction fuel as [|fuel IH]; intros n rest Hn; cbn [digits_onto].
  - destruct (Z.ltb_spec n 10); [exists n, rest; split; [lia|done]|].
    exists (n mod 10), rest. split; [apply Z.mod_pos_bound; lia|done].
  - destruct (Z.ltb_spec n 10); [exists n, rest; split; [lia|done]|].
    apply IH. apply Z.div_pos; lia.
Qed.

(** [strconv.Atoi] reads back what [%d] prints. *)
Lemma Atoi_Itoa n : in_int_range n = true -> Atoi (Itoa n) = Some n.
Proof.
  unfold in_int_range, int_min, int_max. rewrite andb_true_iff, !Z.leb_le. intros Hn.
  assert (Hbig : 10 ^ Z.of_nat 20 = 100000000000000000000) by reflexivity.
  unfold Itoa. destruct (Z.ltb_spec n 0) as [Hneg|Hpos].
  - destruct (digits_onto_head 19 (- n) "") as (d & r & Hd & Hs); [lia|].
    unfold Atoi. cbn [Ascii.eqb Bool.eqb orb]. cbv iota.
    assert (Hp : parse_digits 0 (digits_onto 20 (- n) "") = Some (- n)).
    { rewrite parse_digits_onto; [done|lia]. }
    rewrite Hs in *. rewrite Hp. replace (- - n) with n by lia.
    unfold in_int_range, int_min, int_max.
    destruct (Z.leb_spec (- 2 ^ 63) n); [|lia]. destruct (Z.leb_spec n (2 ^ 63 - 1)); [done|lia].
  - destruct (digits_onto_head 19 n "") as (d & r & Hd & Hs); [lia|].
    assert (Hp : parse_digits 0 (digits_onto 20 n "") = Some n).
    { rewrite parse_digits_onto; [done|lia]. }
    rewrite Hs in *. unfold Atoi. destruct (digit_char_spec d Hd) as (_ & -> & ->).
    cbn [orb]. cbv iota. rewrite Hp.
    unfold in_int_range, int_min, int_max.
    destruct (Z.leb_spec (- 2 ^ 63) n); [|lia]. destruct (Z.leb_spec n (2 ^ 63 - 1)); [done|lia].
Qed.

(** What [strconv.Atoi] accepts begins with neither prefix the handler
    trims. *)
Lemma Atoi_no_prefix s n :
  Atoi s = Some n ->
  strip_prefix "localhost:" s = None /\ strip_prefix "127.0.0.1:" s = None.
Proof.
  intros H. split.
  - destruct s as [|c s]; [done|]. cbn [strip_prefix].
    destruct (Ascii.eqb_spec "l" c) as [<-|]; [|done]. exfalso.
    unfold Atoi in H. simpl in H. by destruct s.
  - destruct s as [|c1 s]; [done|]. cbn [strip_prefix].
    destruct (Ascii.eqb_spec "1" c1) as [<-|]; [|done].
    destruct s as [|c2 s]; [done|]. cbn [strip_prefix].
    destruct (Ascii.eqb_spec "2" c2) as [<-|]; [|done].
    destruct s as [|c3 s]; [done|]. cbn [strip_prefix].
    destruct (Ascii.eqb_spec "7" c3) as [<-|]; [|done].
    destruct s as [|c4 s]; [done|]. cbn [strip_prefix].
    destruct (Ascii.eqb_spec "." c4) as [<-|]; [|done]. exfalso.
    unfold Atoi in H. simpl in H. discriminate H.
Qed.

Lemma port_string_forms s n :
  Atoi s = Some n ->
  port_string s = s
  /\ port_string ("localhost:" +:+ s) = s
  /\ port_string ("127.0.0.1:" +:+ s) = s
  /\ port_string ("localhost:127.0.0.1:" +:+ s) = s.
Proof.
  intros H. destruct (Atoi_no_prefix s n H) as [Hl Hi].
  unfold port_string, TrimPrefix. split_and!.
  - by rewrite Hl, Hi.
  - by rewrite strip_prefix_app, Hi.
  - change (strip_prefix "localhost:" ("127.0.0.1:" +:+ s)) with (@None string).
    cbv iota. by rewrite strip_prefix_app.
  - change ("localhost:127.0.0.1:" +:+ s) with ("localhost:" +:+ ("127.0.0.1:" +:+ s)).
    by rewrite !strip_prefix_app.
Qed.

(** X15.  Every endpoint is reachable on the address its server listens
    on.  For an endpoint of the configuration, the Host values
    [localhost<addr>] and [127.0.0.1<addr>], where [<addr>] is the listening
    address [main] prints for it with [":%d"], as well as the bare port
    number and [localhost:127.0.0.1<addr>], are all read by the handler as
    that endpoint's port, and [FindQueueByPort] then finds a queue bound to
    that port in any manager made for the configuration: such a request is
    never answered 400 Invalid port or 404. *)
Theorem listening_address_is_routed endpoints ep qm host :
  ep ∈ endpoints -> in_int_range (ep_Port ep) = true -> made_for endpoints qm ->
  host ∈ ["localhost" +:+ listen_addr ep; "127.0.0.1" +:+ listen_addr ep;
          Itoa (ep_Port ep); "localhost:127.0.0.1" +:+ listen_addr ep] ->
  Atoi (port_string host) = Some (ep_Port ep)
  /\ exists i q, FindQueueByPort qm (ep_Port ep) = Some (i, q) /\ Port q = ep_Port ep.
Proof.
  intros Hep Hrange Hmade Hhost. split.
  - pose proof (Atoi_Itoa _ Hrange) as Hround.
    destruct (port_string_forms _ _ Hround) as (H0 & H1 & H2 & H3).
    rewrite !elem_of_cons, elem_of_nil in Hhost.
    destruct Hhost as [->|[->|[->|[->|[]]]]].
    + change ("localhost" +:+ listen_addr ep) with ("localhost:" +:+ Itoa (ep_Port ep)).
      by rewrite H1.
    + change ("127.0.0.1" +:+ listen_addr ep) with ("127.0.0.1:" +:+ Itoa (ep_Port ep)).
      by rewrite H2.
    + by rewrite H0.
    + change ("localhost:127.0.0.1" +:+ listen_addr ep)
        with ("localhost:127.0.0.1:" +:+ Itoa (ep_Port ep)).
      by rewrite H3.
  - assert (Hin : exists q, q ∈ Queues qm /\ Port q = ep_Port ep).
    { assert (Hm : (ep_Port ep, ep_Priority ep, ep_Preemptive ep, 100%nat)
                   ∈ meta <$> Queues (NewQueueManager endpoints)).
      { apply list_elem_of_fmap.
        exists (MkPriorityQueue (ep_Port ep) (ep_Priority ep) (ep_Preemptive ep)
                  (make_chan 100)).
        split; [done|]. unfold NewQueueManager. simpl.
        apply list_elem_of_In, in_map_iff. exists ep. split; [done|]. by apply list_elem_of_In. }
      unfold made_for in Hmade. rewrite <- Hmade in Hm.
      apply list_elem_of_fmap in Hm as (q & Hq & Hin). exists q. split; [done|].
      unfold meta in Hq. congruence. }
    destruct Hin as (q & Hin & Hport).
    destruct (FindQueueByPort qm (ep_Port ep)) as [[i q']|] eqn:E.
    + exists i, q'. split; [done|]. by apply FindQueueByPort_Some in E as [_ ?].
    + exfalso. unfold FindQueueByPort in E.
      destruct (find_by_key Port (Queues qm) (ep_Port ep)) as (Hnone & _).
      by apply (proj1 Hnone E q).
Qed.

End HostFacts.

(* ===================================================================== *)
(** * The upstream call *)
(* ===================================================================== *)

Section ClientFacts.

Import Client.

Variable new_request_error : string -> string -> option string.
Variable transport : Outgoing -> Forwarded.

Lemma strip_prefix_Some prefix s rest : strip_prefix prefix s = Some rest -> s = prefix +:+ rest.
Proof.
  revert s. induction prefix as [|c prefix IH]; intros s; simpl; [by intros [= ->]|].
  destruct s as [|c' s]; [done|]. destruct (Ascii.eqb_spec c c') as [<-|]; [|done].
  intros H. by rewrite (IH _ H).
Qed.

Lemma outgoing_url c ctx method path body :
  out_url (outgoing c ctx method path body) = BaseURL c +:+ "/" +:+ TrimPrefix path "/".
Proof.
  unfold outgoing, HasPrefix, TrimPrefix. cbn [out_url].
  destruct (strip_prefix "/" path) as [rest|] eqn:E; [|done].
  by rewrite (strip_prefix_Some _ _ _ E).
Qed.

(** X16.  [ForwardRequest] treats a path with and without its leading
    slash alike, and labels its errors.  The URL requested is the base URL,
    one slash, and the path without its first slash if it has one; so [p]
    and [/p] give the same call.  A response of the HTTP client is returned
    as it is.  An error is returned exactly when building the request
    fails, with the text [error creating request: ] before the cause and
    without the HTTP client being consulted, or when the HTTP client fails,
    with the text [error making request to OpenAI API: ] before the
    cause. *)
Theorem ForwardRequest_normalises_and_labels c ctx method path body :
  let req := outgoing c ctx method path body in
  let result := ForwardRequest new_request_error transport c ctx method path body in
  out_url req = BaseURL c +:+ "/" +:+ TrimPrefix path "/"
  /\ ForwardRequest new_request_error transport c ctx method ("/" +:+ TrimPrefix path "/") body
     = result
  /\ (forall status header bytes,
        result = ForwardResponse status header bytes
        <-> new_request_error method (out_url req) = None
            /\ transport req = ForwardResponse status header bytes)
  /\ (forall msg,
        result = ForwardError msg
        <-> (exists err, new_request_error method (out_url req) = Some err
                         /\ msg = "error creating request: " +:+ err)
            \/ (new_request_error method (out_url req) = None
                /\ exists err, transport req = ForwardError err
                               /\ msg = "error making request to OpenAI API: " +:+ err)).
Proof.
  cbv zeta. split_and!.
  - apply outgoing_url.
  - assert (Hsame : outgoing c ctx method ("/" +:+ TrimPrefix path "/") body
                    = outgoing c ctx method path body).
    { unfold outgoing at 1. unfold HasPrefix. rewrite (strip_prefix_app "/").
      unfold outgoing, HasPrefix, TrimPrefix.
      destruct (strip_prefix "/" path) as [rest|] eqn:E; [|done].
      by rewrite (strip_prefix_Some _ _ _ E). }
    unfold ForwardRequest. by rewrite Hsame.
  - intros status header bytes. unfold ForwardRequest.
    destruct (new_request_error _ _) as [err|];
      [|destruct (transport _) as [err|status' header' bytes']];
      (split; [intros Hr; split; congruence|intros [Hn Ht]; congruence]).
  - intros msg. unfold ForwardRequest.
    destruct (new_request_error _ _) as [err|];
      [|destruct (transport _) as [err|status header bytes]].
    + split; [intros [= <-]; left; by exists err|].
      by intros [(e & [= ->] & ->)|[Hn _]].
    + split; [intros [= <-]; right; split; [done|by exists err]|].
      by intros [(e & Hn & _)|(_ & e & [= ->] & ->)].
    + split; [done|]. by intros [(e & Hn & _)|(_ & e & Ht & _)].
Qed.

Variable ReadFile : string -> Reader.
Variable Unmarshal : string -> option Config.Config.


End ClientFacts.

(* ===================================================================== *)
(** * Preemption and the next dispatch *)
(* ===================================================================== *)

Section YieldFacts.

(** X20.  A preemption makes way for a request of strictly better rank.
    When the monitor of an attempt running from [queue] preempts, in a
    manager whose queues the scheduler has sorted, the next pass of
    [processNextRequest] does dispatch a request, it is the head of a queue
    whose rank is strictly better than that of [queue], and so it is not
    the retry that the monitor may just have pushed. *)
Theorem preemption_yields_to_better_rank qm i ctx req p qm' queue :
  StronglySorted rank_le (Queues qm) -> Queues qm !! i = Some queue ->
  processRequest_tick qm i ctx req = Some (p, qm') ->
  exists next j after q,
    processNextRequest qm' = (Some (next, j), after)
    /\ Queues qm' !! j = Some q
    /\ head (pending q) = Some next
    /\ Priority q < Priority queue
    /\ j <> i.
Proof.
  intros Hsorted Hq. unfold processRequest_tick. rewrite Hq.
  destruct (ShouldPreempt qm (Priority queue)) eqn:Hpre; [|done]. intros [= <- <-].
  unfold ShouldPreempt in Hpre. destruct (stopping qm); [done|].
  apply any_outranks_true in Hpre as (q0 & Hin0 & Hout).
  apply outranks_true in Hout as (Hlt & _ & Hwaiting).
  apply list_elem_of_lookup in Hin0 as [k Hk].
  assert (Hki : k <> i) by (intros ->; rewrite Hq in Hk; injection Hk as <-; lia).
  set (qs' := <[i := pre_queue (processRequest_preempt ctx queue req)]> (Queues qm)).
  assert (Hk' : qs' !! k = Some q0) by (unfold qs'; by rewrite list_lookup_insert_ne).
  assert (Hmeta : meta <$> qs' = meta <$> Queues qm).
  { apply (insert_meta _ _ queue); [done|]. unfold processRequest_preempt.
    case_decide; [|done]. unfold try_send. by case_decide. }
  assert (Hsorted' : StronglySorted rank_le qs') by by eapply sorted_of_meta.
  unfold processNextRequest. cbn [Queues stopping]. fold qs'.
  destruct (scan qs') as [[[next j] after]|] eqn:Hscan.
  - destruct (scan_Some _ _ _ _ Hscan) as (q & rest & Hj & Hhead & _ & _).
    exists next, j, (MkQueueManager after false), q.
    assert (Hrank : Priority q < Priority queue).
    { destruct (Z.lt_ge_cases (Priority q0) (Priority q)) as [Hbetter|Hle]; [|lia].
      exfalso. apply Hwaiting.
      apply (scan_strict_priority _ _ _ _ _ Hsorted' Hscan Hj q0); [|done].
      apply list_elem_of_lookup. eauto. }
    split_and!; [done|done|by rewrite Hhead|done|].
    intros ->. destruct (lookup_of_meta _ _ _ _ Hmeta Hj) as (q1 & Hq1 & Hm).
    rewrite Hq in Hq1. injection Hq1 as <-. unfold meta in Hm.
    assert (Priority queue = Priority q) by congruence. lia.
  - exfalso. apply scan_None in Hscan. rewrite Forall_forall in Hscan.
    apply Hwaiting, Hscan. apply list_elem_of_lookup. eauto.
Qed.

End YieldFacts.

(* ===================================================================== *)
(** * The metrics collector *)
(* ===================================================================== *)

Section CollectorFacts.

Import Metrics.

Lemma replay_initialised calls p c :
  once p = true -> collector p = Some c ->
  Forall (fun returned => returned = Some c) (replay calls p).1
  /\ (replay calls p).2 = p.
Proof.
  intros Honce Hc. induction calls as [|call calls [IH1 IH2]]; [done|].
  cbn [replay]. unfold NewMetricsCollector. rewrite Honce.
  destruct (replay calls p) as [others p2]. simpl in *. split; [|done].
  constructor; done.
Qed.

(** X19.  The metrics collector is made once.  Before the first call of
    [NewMetricsCollector], [GetCollector] panics.  After it, whatever
    further calls are made and with whatever arguments, every call has
    returned the collector made from the arguments of the first one, and
    [GetCollector] returns that collector and does not panic. *)
Theorem collector_is_made_once first calls :
  GetCollector start = inr "metrics collector not initialized"
  /\ Forall (fun returned => returned = Some first) (replay (first :: calls) start).1
  /\ GetCollector (replay (first :: calls) start).2 = inl first
  /\ once (replay (first :: calls) start).2 = true.
Proof.
  split; [done|]. cbn [replay]. unfold NewMetricsCollector. cbn [start once collector].
  destruct first as [url token org bucket]. cbn [mc_url mc_token mc_org mc_bucket].
  set (made := MkMetricsCollector url token org bucket).
  destruct (replay_initialised calls (MkPackage (Some made) true) made eq_refl eq_refl)
    as [Hall Hsame].
  destruct (replay calls (MkPackage (Some made) true)) as [others p2]. simpl in *.
  subst p2. split_and!; [by constructor|done|done].
Qed.

End CollectorFacts.

(* ===================================================================== *)
(** * The further properties on the scenarios *)
(* ===================================================================== *)

Lemma sortByPriority_unique_witness :
  sorted_queues unsorted = ascending
  /\ sorted_queues unsorted = sorted_queues unsorted
  /\ forall i j q q', (i < j)%nat -> sorted_queues unsorted !! i = Some q ->
       sorted_queues unsorted !! j = Some q' -> Priority q < Priority q'.
Proof.
  apply (sortByPriority_unique unsorted (sorted_queues unsorted) ascending).
  - apply (bool_decide_unpack (NoDup (Priority <$> unsorted))). vm_compute. exact I.
  - apply sortByPriority_total.
  - split; [apply perm_swap|].
    repeat constructor; unfold rank_le; simpl; lia.
Defined.

Lemma upstream_response_relayed_once_witness :
  exists a',
    run (processRequest manager 1 request_A 7 true) undisturbed = Some a'
    /\ at_processor a' = ProcessorReturned
    /\ visible (effects_of Processor (at_trace a'))
       = [WriteHeader 1 200;
          WriteBody 1 ("{" +:+ dq +:+ "id" +:+ dq +:+ ":" +:+ dq +:+ "r1" +:+ dq +:+ "}");
          CloseDone 1].
Proof.
  eexists. split; [vm_compute; reflexivity|]. split; [reflexivity|].
  destruct (upstream_response_relayed_once (processRequest manager 1 request_A 7 true)
              200 [] ("{" +:+ dq +:+ "id" +:+ dq +:+ ":" +:+ dq +:+ "r1" +:+ dq +:+ "}") 6
              (replicate 5 ProcessorStep) _ eq_refl eq_refl eq_refl
              ltac:(vm_compute; reflexivity))
    as [(written & Hv & _ & Hret) _].
  rewrite Hv, (Hret eq_refl). reflexivity.
Defined.

Lemma monitor_acts_at_most_once_witness :
  exists a',
    run (processRequest manager 1 request_A 7 true) late_cancel = Some a'
    /\ effects_of Monitor (at_trace a') `prefix_of` overload_reply (WithCancel 7) 1 1
    /\ effects_of Monitor (at_trace a') = [Cancel (WithCancel 7)].
Proof.
  eexists. split; [vm_compute; reflexivity|]. split; [|reflexivity].
  destruct (monitor_acts_at_most_once (processRequest manager 1 request_A 7 true)
              late_cancel _ eq_refl eq_refl ltac:(vm_compute; reflexivity))
    as [Hpre _].
  exact Hpre.
Defined.

Lemma preempted_without_requeue_is_abandoned_witness :
  ShouldPreempt urgent_manager 1 = true
  /\ exists a1,
       exec (processRequest urgent_manager 1 request_B 9 true) MonitorTick = Some a1
       /\ at_trace a1 = [(Monitor, Cancel (WithCancel 9))]
       /\ forall schedule a',
            run a1 schedule = Some a' -> at_trace a' = at_trace a1 /\ at_closes a' = 0%nat.
Proof.
  split; [reflexivity|].
  destruct (preempted_without_requeue_is_abandoned
              (processRequest urgent_manager 1 request_B 9 true)
              (MkPriorityQueue 8080 1 true (MkChan [] 100))
              eq_refl eq_refl eq_refl ltac:(simpl; lia) eq_refl)
    as (a1 & Hexec & Htrace & _ & _ & Hall).
  exists a1. split_and!; [exact Hexec|exact Htrace|].
  intros schedule a' Hrun. destruct (Hall schedule a' Hrun) as (Ht & Hc & _). by split.
Defined.

Lemma listening_address_is_routed_witness :
  listen_addr (MkEndpoint 8081 2 false) = ":8081"
  /\ Atoi (port_string "localhost:8081") = Some 8081
  /\ exists i q, FindQueueByPort manager 8081 = Some (i, q) /\ Port q = 8081.
Proof.
  split; [reflexivity|].
  apply (listening_address_is_routed endpoints (MkEndpoint 8081 2 false) manager
           "localhost:8081").
  - apply list_elem_of_In. simpl. by right; left.
  - reflexivity.
  - unfold made_for. reflexivity.
  - apply list_elem_of_In. simpl. by left.
Defined.



Lemma preemption_yields_to_better_rank_witness :
  exists p qm',
    processRequest_tick (MkQueueManager ascending false) 1 (WithCancel 7) request_C
    = Some (p, qm')
    /\ exists next j after q,
         processNextRequest qm' = (Some (next, j), after)
         /\ Queues qm' !! j = Some q
         /\ head (pending q) = Some next
         /\ Priority q < 2
         /\ j <> 1%nat.
Proof.
  eexists _, _. split; [vm_compute; reflexivity|].
  eapply (preemption_yields_to_better_rank (MkQueueManager ascending false) 1
            (WithCancel 7) request_C _ _
            (MkPriorityQueue 8081 2 false (MkChan [request_A] 100))).
  - repeat constructor; unfold rank_le; simpl; lia.
  - reflexivity.
  - vm_compute. reflexivity.
Defined.
